(** * The in-memory rendezvous synchronisation provider

    A shallow embedding of [sync_inmem_provider.go]: the topic registry
    ([PubSub]), the per-namespace subscriber sets ([PubSubSubscribers]),
    the registration API ([Register], [Unregister], [Subscribe]) and the
    stream session handler ([handleStream]).

    Go maps and pointers are references, so the registry is modelled over
    an explicit heap: [ps.topics] maps a namespace to the address of a
    [PubSubSubscribers] struct, whose [subscribers] field holds the address
    of a Go map object.  Copying such a field copies the address, not the
    map.  Mutexes are not modelled as data; they delimit the atomic steps
    of the interleaving semantics at the end of the file. *)

From stdpp Require Import base gmap sets list strings.
From Stdlib Require Import ZArith Lia.
From Stdlib Require Strings.Byte.

Open Scope Z_scope.

(** ** Machine integers and the time package *)

(** Two's complement wrap-around of an [int64] result. *)
Definition wrap64 (z : Z) : Z := (z + 2 ^ 63) mod 2 ^ 64 - 2 ^ 63.

(** [time.Second], a [time.Duration] (an [int64] count of nanoseconds). *)
Definition Second : Z := 1000000000.

(** A wall-clock reading of the [time] package: Unix seconds and the
    nanosecond within that second.  The packed representation (wall/ext
    words, monotonic reading) is not modelled. *)
Record Time := mkTime { unix_sec : Z; nsec : Z }.

(** [time.Duration(ttlAsSeconds) * time.Second]: the conversion of an
    [int] (64 bits wide on the usual platforms) and an [int64]
    multiplication. *)
Definition ttl_Duration (ttlAsSeconds : Z) : Z :=
  wrap64 (wrap64 ttlAsSeconds * Second).

(** [Time.Add]: seconds and nanoseconds of the duration are split by
    truncated division and the nanosecond field is renormalised. *)
Definition Time_Add (t : Time) (d : Z) : Time :=
  let dsec := Z.quot d 1000000000 in
  let ns := nsec t + Z.rem d 1000000000 in
  if 1000000000 <=? ns then mkTime (unix_sec t + (dsec + 1)) (ns - 1000000000)
  else if ns <? 0 then mkTime (unix_sec t + (dsec - 1)) (ns + 1000000000)
  else mkTime (unix_sec t + dsec) ns.

(** [Time.UnixMilli]: [unixSec*1e3 + nsec/1e6] on [int64]. *)
Definition Time_UnixMilli (t : Time) : Z :=
  wrap64 (wrap64 (unix_sec t * 1000) + Z.quot (nsec t) 1000000).

(** The readings [time.Now] can return: a normalised nanosecond field and
    a second count far from the ends of [int64]. *)
Definition clock_reading (t : Time) : Prop :=
  - 2 ^ 40 <= unix_sec t <= 2 ^ 40 /\ 0 <= nsec t < 1000000000.

(** ** Data model *)

(** [peer.ID] is a string type. *)
Abbreviation peer_ID := string (only parsing).

(** A [ggio.Writer] made by [ggio.NewDelimitedWriter(s)]: identified with
    the number of the stream [s] it wraps. *)
Abbreviation Writer := nat (only parsing).

(** Heap addresses of [PubSubSubscribers] structs and of Go map objects. *)
Abbreviation loc := positive (only parsing).

(** Modelled from the spec: the wire schema of package [pb], which is not
    part of the sources.  A record carries {identity string, address list
    of opaque byte blobs, namespace string, expiry as epoch-millisecond
    timestamp}; a request is discriminated by its type, one variant being
    discover/subscribe, which carries a namespace string. *)
Record RegistrationRecord := mkRecord {
  Id : string;
  Addrs : list (list Byte.byte);
  Ns : string;
  Ttl : Z }.

Inductive MessageType :=
  | Message_DISCOVER_SUBSCRIBE
  | Message_OTHER (code : Z).

Record Message := mkMessage {
  Type_ : MessageType;
  DiscoverSubscribe_Ns : string }.

#[global] Instance byte_eq_dec : EqDecision Byte.byte := Strings.Byte.byte_eq_dec.

#[global] Instance MessageType_eq_dec : EqDecision MessageType.
Proof. solve_decision. Defined.

#[global] Instance RegistrationRecord_eq_dec : EqDecision RegistrationRecord.
Proof. solve_decision. Defined.

(** [type PubSubSubscribers struct]: [subscribers] is a reference to a map
    object of type [map[peer.ID]ggio.Writer]; [lastAnnouncement] is a
    pointer to a record that is never written after it is built, so it is
    held by value ([None] is [nil]). *)
Record PubSubSubscribers := mkTopic {
  subscribers : loc;
  lastAnnouncement : option RegistrationRecord }.

#[global] Instance PubSubSubscribers_inhabited : Inhabited PubSubSubscribers :=
  populate (mkTopic 1%positive None).

(** [type PubSub struct] together with the heap objects reachable from it.
    [host] stands for [ps.host.ID()]. *)
Record PubSub := mkPubSub {
  host : peer_ID;
  topics : gmap string loc;
  topic_heap : gmap loc PubSubSubscribers;
  map_heap : gmap loc (gmap peer_ID Writer) }.

(** [type PubSubSubscriptionDetails struct]. *)
Record PubSubSubscriptionDetails := mkDetails {
  PeerID : string;
  ChannelName : string }.

Definition ServiceType : string := "inmem".
Definition ServiceProto : string := "/rendezvous/sync/inmem/1.0.0".

(** What a run leaves behind outside the registry: messages handed to a
    writer, lines given to the logger, streams that were reset. *)
Inductive Event :=
  | EvWrite (w : Writer) (msg : RegistrationRecord)
  | EvLog (line : string)
  | EvReset (s : Writer).

#[global] Instance Event_eq_dec : EqDecision Event.
Proof. solve_decision. Defined.

Record World := mkWorld {
  registry : PubSub;
  trace : list Event }.

(** Reading through a pointer or a map reference. *)
Definition topic_at (l : loc) (ps : PubSub) : PubSubSubscribers :=
  topic_heap ps !!! l.

Definition map_at (m : loc) (ps : PubSub) : gmap peer_ID Writer :=
  map_heap ps !!! m.

(** The subscriber map and the cached announcement of a namespace, read
    through [ps.topics]; [None] when the namespace has no Topic. *)
Definition subscribers_of (ns : string) (ps : PubSub) : option (gmap peer_ID Writer) :=
  l ← topics ps !! ns; t ← topic_heap ps !! l; map_heap ps !! subscribers t.

Definition announcement_of (ns : string) (ps : PubSub) : option RegistrationRecord :=
  l ← topics ps !! ns; t ← topic_heap ps !! l; lastAnnouncement t.

(** [NewSyncInMemProvider]: an empty topic map.  [ps.Listen()] binds
    [handleStream] to the protocol; inbound streams are the [ActAccept]
    steps below. *)
Definition NewSyncInMemProvider (h : peer_ID) : PubSub :=
  mkPubSub h ∅ ∅ ∅.

(** ** The topic registry *)

(** [getOrCreateTopic]: under [ps.mu], return the struct registered for
    [ns], or allocate an empty map and a struct pointing to it, register
    the struct and return it. *)
Definition getOrCreateTopic (ns : string) (ps : PubSub) : loc * PubSub :=
  match topics ps !! ns with
  | Some l => (l, ps)
  | None =>
      let m := fresh (dom (map_heap ps)) in
      let l := fresh (dom (topic_heap ps)) in
      (l, mkPubSub (host ps)
                   (<[ns := l]> (topics ps))
                   (<[l := mkTopic m None]> (topic_heap ps))
                   (<[m := ∅]> (map_heap ps)))
  end.

(** ** Writing through a reference *)

(** [topic.lastAnnouncement = a] for the struct at [l]. *)
Definition set_lastAnnouncement (l : loc) (a : RegistrationRecord) (ps : PubSub) : PubSub :=
  mkPubSub (host ps) (topics ps)
           (alter (λ t, mkTopic (subscribers t) (Some a)) l (topic_heap ps))
           (map_heap ps).

(** [m[p] = w] and [delete(m, p)] for the map object at [m]. *)
Definition map_store (m : loc) (p : peer_ID) (w : Writer) (ps : PubSub) : PubSub :=
  mkPubSub (host ps) (topics ps) (topic_heap ps)
           (alter (insert p w) m (map_heap ps)).

Definition map_delete (m : loc) (p : peer_ID) (ps : PubSub) : PubSub :=
  mkPubSub (host ps) (topics ps) (topic_heap ps)
           (alter (delete p) m (map_heap ps)).

(** ** JSON encoding of a reflected Go value *)

(** Go values as [encoding/json] meets them, restricted to the kinds that
    matter here: strings, structs with exported fields, and the kinds the
    encoder rejects with an [UnsupportedTypeError] (channels, functions,
    complex numbers).  [encoding/json] belongs to Go's library; this is
    its documented behaviour on these kinds. *)
Inductive GoValue :=
  | GoString (s : string)
  | GoStruct (fields : list GoField)
  | GoUnsupported (kind : string)
with GoField :=
  | Field (name : string) (v : GoValue).

(** A session of the stream handler: the stream (which also names its
    delimited writer [w]), [s.Conn().RemotePeer()], and the local
    [subscribedTopics] set. *)
Record Session := mkSession {
  stream : Writer;
  RemotePeer : peer_ID;
  subscribedTopics : gset string }.

(** The result of [r.ReadMsg(&req)]. *)
Inductive ReadResult :=
  | ReadErr (err : string)
  | ReadMsg (req : Message).

(** Where the handler loop stands after an iteration. *)
Inductive Status := Reading | Terminated.

(** The goroutines of a running provider: the live stream handlers, by
    stream, and the [Register] calls that have released the Topic's mutex
    and not yet run their loop, each with its [toNotify] and
    [dataToSend]. *)
Record System := mkSystem {
  world : World;
  sessions : gmap Writer Session;
  broadcasts : list (loc * RegistrationRecord) }.

Inductive Action :=
  | ActAccept (sid : Writer) (remote : peer_ID)
  | ActRead (sid : Writer) (r : ReadResult)
  | ActRegisterBegin (pid : peer_ID) (ns : string) (addrs : list (list Byte.byte))
      (ttlAsSeconds : Z) (counter : Z) (now : Time)
  | ActRegisterNotify (k : nat)
  | ActUnregister (p : peer_ID) (ns : string)
  | ActSubscribe (ns : string).

(** The surroundings of the provider: the Go runtime and the network. *)
Record Env := mkEnv {
  (** [peer.ID.String]. *)
  ID_String : peer_ID → string;
  (** The string encoder of [encoding/json] (quoting and escaping). *)
  json_quote : string → string;
  (** Whether [WriteMsg] on a writer fails, given everything that happened
      before: [Some e] is the error. *)
  WriteMsg_err : Writer → RegistrationRecord → list Event → option string;
  (** The order in which a [range] loop produces the entries of a map; Go
      leaves it unspecified. *)
  range_subscribers : gmap peer_ID Writer → list (peer_ID * Writer);
  range_topics : gset string → list string }.

(** A [range] loop produces every entry of the map once. *)
Definition range_complete (E : Env) : Prop :=
  (∀ m, range_subscribers E m ≡ₚ map_to_list m) ∧
  (∀ X, range_topics E X ≡ₚ elements X).

Section Provider.

Variable E : Env.

(** *** Effects *)

Definition WriteMsg (wr : Writer) (msg : RegistrationRecord) (w : World)
  : option string * World :=
  (WriteMsg_err E wr msg (trace w),
   mkWorld (registry w) (trace w ++ [EvWrite wr msg])).

Definition log_Errorf (line : string) (w : World) : World :=
  mkWorld (registry w) (trace w ++ [EvLog line]).

(** *** Subscribe *)

(** [json.Marshal]: a string is quoted, a struct is the list of its quoted
    field names and encoded fields, and the first unsupported value met
    is the error. *)
Fixpoint json_Marshal (v : GoValue) : string + string :=
  match v with
  | GoString s => inl (json_quote E s)
  | GoUnsupported kind => inr ("json: unsupported type: " +:+ kind)
  | GoStruct fields =>
      match
        (fix members (fs : list GoField) (first : bool) : string + string :=
           match fs with
           | [] => inl EmptyString
           | Field name fv :: rest =>
               match json_Marshal fv, members rest false with
               | inl e, inl more =>
                   inl ((if first then EmptyString else ",")
                        +:+ json_quote E name +:+ ":" +:+ e +:+ more)
               | inr err, _ => inr err
               | _, inr err => inr err
               end
           end) fields true
      with
      | inl body => inl ("{" +:+ body +:+ "}")
      | inr err => inr err
      end
  end.

(** The reflected form of a [PubSubSubscriptionDetails]. *)
Definition details_value (d : PubSubSubscriptionDetails) : GoValue :=
  GoStruct [Field "PeerID" (GoString (PeerID d));
            Field "ChannelName" (GoString (ChannelName d))].

(** [Subscribe] returns [(syncDetails, err)]; [None] is a nil error. *)
Definition Subscribe (ns : string) (w : World) : (string * option string) * World :=
  match json_Marshal (details_value (mkDetails (ID_String E (host (registry w))) ns)) with
  | inr err => ((EmptyString, Some ("unable to marshal subscription details: " +:+ err)), w)
  | inl details => ((details, None), w)
  end.

Definition GetServiceType (w : World) : string := ServiceType.

(** *** Register *)

(** The record built at lines 84-89. *)
Definition Register_record (pid : peer_ID) (ns : string) (addrs : list (list Byte.byte))
    (ttlAsSeconds : Z) (now : Time) : RegistrationRecord :=
  mkRecord (ID_String E pid) addrs ns
           (Time_UnixMilli (Time_Add now (ttl_Duration ttlAsSeconds))).

(** Lines 91-94, under the Topic's mutex: store the record and bind
    [toNotify] to the [subscribers] field.  The result is the address
    held in that field. *)
Definition Register_publish (l : loc) (dataToSend : RegistrationRecord) (ps : PubSub)
  : loc * PubSub :=
  let ps1 := set_lastAnnouncement l dataToSend ps in
  (subscribers (topic_at l ps1), ps1).

(** Lines 96-100 on the entries a [range] produces. *)
Fixpoint notify (dataToSend : RegistrationRecord) (entries : list (peer_ID * Writer))
    (w : World) : World :=
  match entries with
  | [] => w
  | (_, stream) :: rest =>
      let '(err, w1) := WriteMsg stream dataToSend w in
      let w2 := match err with
                | Some e => log_Errorf ("unable to notify rendezvous data update: " +:+ e) w1
                | None => w1
                end in
      notify dataToSend rest w2
  end.

(** The loop of lines 96-100: it ranges over the map that [toNotify]
    refers to when the loop runs. *)
Definition Register_notify (toNotify : loc) (dataToSend : RegistrationRecord)
    (w : World) : World :=
  notify dataToSend (range_subscribers E (map_at toNotify (registry w))) w.

(** Lines 83-94: everything up to the release of the Topic's mutex. *)
Definition Register_begin (pid : peer_ID) (ns : string) (addrs : list (list Byte.byte))
    (ttlAsSeconds : Z) (counter : Z) (now : Time) (w : World)
  : (loc * RegistrationRecord) * World :=
  let '(l, ps1) := getOrCreateTopic ns (registry w) in
  let dataToSend := Register_record pid ns addrs ttlAsSeconds now in
  let '(toNotify, ps2) := Register_publish l dataToSend ps1 in
  ((toNotify, dataToSend), mkWorld ps2 (trace w)).

(** A [Register] call that no other goroutine interleaves with. *)
Definition Register (pid : peer_ID) (ns : string) (addrs : list (list Byte.byte))
    (ttlAsSeconds : Z) (counter : Z) (now : Time) (w : World) : World :=
  let '((toNotify, dataToSend), w1) :=
    Register_begin pid ns addrs ttlAsSeconds counter now w in
  Register_notify toNotify dataToSend w1.

(** [Unregister]: the body is empty. *)
Definition Unregister (p : peer_ID) (ns : string) (w : World) : World := w.

(** *** The stream handler *)

(** Lines 124-129: for each joined namespace, delete the peer from the
    Topic's subscriber map. *)
Fixpoint leave_topics (p : peer_ID) (nss : list string) (ps : PubSub) : PubSub :=
  match nss with
  | [] => ps
  | ns :: rest =>
      let '(topic, ps1) := getOrCreateTopic ns ps in
      leave_topics p rest (map_delete (subscribers (topic_at topic ps1)) p ps1)
  end.

(** One iteration of the loop of [handleStream] on the outcome of the
    read.  [Terminated] is the [return] of line 130, after which the
    deferred [s.Reset()] runs. *)
Definition handle_read (s : Session) (r : ReadResult) (w : World)
  : Session * Status * World :=
  match r with
  | ReadErr _ =>
      (s, Terminated,
       mkWorld (leave_topics (RemotePeer s) (range_topics E (subscribedTopics s)) (registry w))
               (trace w ++ [EvReset (stream s)]))
  | ReadMsg req =>
      if decide (Type_ req ≠ Message_DISCOVER_SUBSCRIBE) then (s, Reading, w)
      else
        let ns := DiscoverSubscribe_Ns req in
        let '(topic, ps1) := getOrCreateTopic ns (registry w) in
        let m := subscribers (topic_at topic ps1) in
        match map_at m ps1 !! RemotePeer s with
        | Some _ => (s, Reading, mkWorld ps1 (trace w))
        | None =>
            let ps2 := map_store m (RemotePeer s) (stream s) ps1 in
            let s' := mkSession (stream s) (RemotePeer s) ({[ns]} ∪ subscribedTopics s) in
            match lastAnnouncement (topic_at topic ps2) with
            | None => (s', Reading, mkWorld ps2 (trace w))
            | Some a =>
                let '(err, w1) := WriteMsg (stream s) a (mkWorld ps2 (trace w)) in
                (s', Reading,
                 match err with
                 | Some e => log_Errorf ("unable to write announcement: " +:+ e) w1
                 | None => w1
                 end)
            end
        end
  end.

(** The loop on the successive outcomes of [ReadMsg]; when they run out
    the handler is blocked in its next read. *)
Fixpoint handle_reads (s : Session) (reads : list ReadResult) (w : World)
  : Session * Status * World :=
  match reads with
  | [] => (s, Reading, w)
  | r :: rest =>
      match handle_read s r w with
      | (s1, Reading, w1) => handle_reads s1 rest w1
      | stopped => stopped
      end
  end.

(** [handleStream] on a new stream: [subscribedTopics] starts empty. *)
Definition handleStream (sid : Writer) (remote : peer_ID) (reads : list ReadResult)
    (w : World) : Session * Status * World :=
  handle_reads (mkSession sid remote ∅) reads w.

(** *** Goroutines

    The provider runs one [handleStream] goroutine per inbound stream
    while [Register], [Unregister] and [Subscribe] are called from the
    local peer.  An atomic step is what a goroutine does between two
    points where another one can observe or change the registry: one
    iteration of the handler loop, the part of [Register] up to the
    release of the Topic's mutex, and the loop of [Register] after it.
    A map that changes while a [range] loop is running over it is
    outside this semantics. *)

Definition step (a : Action) (σ : System) : System :=
  match a with
  | ActAccept sid remote =>
      match sessions σ !! sid with
      | Some _ => σ
      | None =>
          mkSystem (world σ) (<[sid := mkSession sid remote ∅]> (sessions σ)) (broadcasts σ)
      end
  | ActRead sid r =>
      match sessions σ !! sid with
      | None => σ
      | Some s =>
          match handle_read s r (world σ) with
          | (s1, Reading, w1) => mkSystem w1 (<[sid := s1]> (sessions σ)) (broadcasts σ)
          | (_, Terminated, w1) => mkSystem w1 (delete sid (sessions σ)) (broadcasts σ)
          end
      end
  | ActRegisterBegin pid ns addrs ttlAsSeconds counter now =>
      let '(b, w1) := Register_begin pid ns addrs ttlAsSeconds counter now (world σ) in
      mkSystem w1 (sessions σ) (broadcasts σ ++ [b])
  | ActRegisterNotify k =>
      match broadcasts σ !! k with
      | None => σ
      | Some (toNotify, dataToSend) =>
          mkSystem (Register_notify toNotify dataToSend (world σ)) (sessions σ)
                   (delete k (broadcasts σ))
      end
  | ActUnregister p ns =>
      mkSystem (Unregister p ns (world σ)) (sessions σ) (broadcasts σ)
  | ActSubscribe ns =>
      mkSystem (snd (Subscribe ns (world σ))) (sessions σ) (broadcasts σ)
  end.

Definition run (acts : list Action) (σ : System) : System :=
  fold_left (λ σ a, step a σ) acts σ.

(** The record the latest [Register] call for [ns] among [acts] built. *)
Definition registered (ns : string) (a : Action) : option RegistrationRecord :=
  match a with
  | ActRegisterBegin pid ns' addrs ttlAsSeconds _ now =>
      if decide (ns' = ns) then Some (Register_record pid ns addrs ttlAsSeconds now)
      else None
  | _ => None
  end.

Definition last_registered (ns : string) (acts : list Action) : option RegistrationRecord :=
  last (omap (registered ns) acts).

End Provider.

(** The provider right after [NewSyncInMemProvider]. *)
Definition boot (h : peer_ID) : System :=
  mkSystem (mkWorld (NewSyncInMemProvider h) []) ∅ [].

(** ** Well-formed heaps

    Every registered Topic and every subscriber map is allocated, and no
    two namespaces share a Topic or a map object. *)
Definition wf (ps : PubSub) : Prop :=
  map_Forall (λ _ l, is_Some (topic_heap ps !! l)) (topics ps) ∧
  map_Forall (λ _ t, is_Some (map_heap ps !! subscribers t)) (topic_heap ps) ∧
  map_Forall (λ ns1 l1, map_Forall (λ ns2 l2, l1 = l2 → ns1 = ns2) (topics ps)) (topics ps) ∧
  map_Forall (λ l1 t1,
    map_Forall (λ l2 t2, subscribers t1 = subscribers t2 → l1 = l2) (topic_heap ps))
    (topic_heap ps).

#[global] Instance wf_dec ps : Decision (wf ps).
Proof. unfold wf. apply _. Defined.

(** The number of entries a map holds for a peer. *)
Definition entries_for (p : peer_ID) (m : gmap peer_ID Writer) : nat :=
  length (filter (λ e, e.1 = p) (map_to_list m)).

(** The writes among the events of a trace, in order. *)
Definition writes_in (evs : list Event) : list (Writer * RegistrationRecord) :=
  omap (λ e, match e with EvWrite wr msg => Some (wr, msg) | _ => None end) evs.

(** A discover/subscribe request for a namespace. *)
Definition discover_subscribe (ns : string) : ReadResult :=
  ReadMsg (mkMessage Message_DISCOVER_SUBSCRIBE ns).

(** ** A concrete environment *)

(** The double quote. *)
Definition dquote : string := String (Ascii.ascii_of_nat 34) EmptyString.

(** Writes succeed unless the writer is stream 1 (a subscriber whose
    connection is broken); [range] produces entries in key order; strings
    are quoted without escapes. *)
Definition demo_env : Env :=
  mkEnv (λ p, p) (λ s, dquote +:+ s +:+ dquote)
        (λ wr _ _, if decide (wr = 1%nat) then Some "broken pipe"%string else None)
        map_to_list elements.

Definition demo_now : Time := mkTime 1700000000 250000000.

(** Peers B (stream 1) and C (stream 2) have both subscribed to "chat". *)
Definition demo_subscribed : System :=
  run demo_env [ActAccept 1 "B"; ActRead 1 (discover_subscribe "chat");
                ActAccept 2 "C"; ActRead 2 (discover_subscribe "chat")]
      (boot "host").

Definition demo_chat : gmap string nat := <["B" := 1%nat]> (<["C" := 2%nat]> ∅).

(** "chat" has an announcement and no subscriber. *)
Definition demo_registered : World :=
  Register demo_env "p1" "chat" [] 30 1 demo_now (world (boot "host")).

(** Peer B has subscribed to "chat" and a [Register] call for "chat" has
    just released the Topic's mutex: its loop has not started. *)
Definition demo_snapshot : System :=
  run demo_env [ActAccept 1 "B"; ActRead 1 (discover_subscribe "chat");
                ActRegisterBegin "p1" "chat" [] 30 1 demo_now]
      (boot "host").

(** Peer C subscribes to "chat" before that loop starts. *)
Definition demo_late : System :=
  run demo_env [ActAccept 2 "C"; ActRead 2 (discover_subscribe "chat")] demo_snapshot.

(** The session of peer B once it has joined "chat". *)
Definition demo_session : Session := mkSession 1 "B" {["chat"]}.

(** The environment of [demo_env] with writers that never fail. *)
Definition calm_env : Env :=
  mkEnv (ID_String demo_env) (json_quote demo_env) (λ _ _ _, None)
        (range_subscribers demo_env) (range_topics demo_env).


(** A read that yields a message of another type than discover/subscribe. *)
Definition other_request (r : ReadResult) : Prop :=
  match r with
  | ReadMsg req => Type_ req ≠ Message_DISCOVER_SUBSCRIBE
  | ReadErr _ => False
  end.

(** * Properties *)

(** ** The expiry of a record *)

Lemma wrap64_small z : - 2 ^ 63 <= z < 2 ^ 63 → wrap64 z = z.
Proof.
  intros Hz. unfold wrap64.
  rewrite Z.mod_small by lia. lia.
Qed.

Lemma ttl_Duration_exact ttl :
  - 2 ^ 63 <= ttl * 1000000000 < 2 ^ 63 → ttl_Duration ttl = ttl * 1000000000.
Proof.
  intros Hd. unfold ttl_Duration, Second.
  rewrite (wrap64_small ttl) by lia.
  by apply wrap64_small.
Qed.

Lemma Time_Add_seconds t ttl :
  0 <= nsec t < 1000000000 →
  Time_Add t (ttl * 1000000000) = mkTime (unix_sec t + ttl) (nsec t).
Proof.
  intros Hn. unfold Time_Add.
  rewrite Z.quot_mul by lia. rewrite Z.rem_mul by lia.
  rewrite Z.add_0_r.
  destruct (Z.leb_spec 1000000000 (nsec t)); [lia |].
  destruct (Z.ltb_spec (nsec t) 0); [lia | done].
Qed.

Lemma Time_UnixMilli_shift t ttl :
  clock_reading t →
  - 2 ^ 63 <= ttl * 1000000000 < 2 ^ 63 →
  Time_UnixMilli (mkTime (unix_sec t + ttl) (nsec t)) = Time_UnixMilli t + ttl * 1000.
Proof.
  intros [Hs Hn] Hd. unfold Time_UnixMilli. simpl.
  assert (0 <= Z.quot (nsec t) 1000000 < 1000) as Hq.
  { split; [apply Z.quot_pos; lia | apply Z.quot_lt_upper_bound; lia]. }
  change (2 ^ 40) with 1099511627776 in Hs.
  change (2 ^ 63) with 9223372036854775808 in Hd.
  assert (∀ z, -9223372036854775808 <= z < 9223372036854775808 → wrap64 z = z) as Hw.
  { intros z Hz. apply wrap64_small. change (2 ^ 63) with 9223372036854775808. lia. }
  rewrite (Hw (unix_sec t * 1000)) by lia.
  rewrite (Hw ((unix_sec t + ttl) * 1000)) by lia.
  rewrite !Hw by lia. lia.
Qed.

Lemma Register_begin_record E pid ns addrs ttl counter now w :
  (Register_begin E pid ns addrs ttl counter now w).1.2
  = Register_record E pid ns addrs ttl now.
Proof.
  unfold Register_begin, Register_publish.
  by destruct (getOrCreateTopic ns (registry w)).
Qed.

(** C6 (as amended): the record [Register] builds carries the string form
    of the given identity, the namespace and the address list, and, when
    [ttlAsSeconds] seconds fit a [time.Duration], an expiry that is the
    call time plus [ttlAsSeconds] seconds in epoch milliseconds; with a
    zero TTL the expiry is the call time. *)
Theorem Register_record_expiry E pid ns addrs ttl counter now w :
  clock_reading now →
  - 2 ^ 63 <= ttl * 1000000000 < 2 ^ 63 →
  (Register_begin E pid ns addrs ttl counter now w).1.2
  = mkRecord (ID_String E pid) addrs ns (Time_UnixMilli now + ttl * 1000)
  ∧ Ttl (Register_begin E pid ns addrs 0 counter now w).1.2 = Time_UnixMilli now.
Proof.
  intros Hnow Hd. rewrite !Register_begin_record. unfold Register_record.
  split.
  - f_equal. rewrite ttl_Duration_exact by done.
    rewrite Time_Add_seconds by apply Hnow.
    by apply Time_UnixMilli_shift.
  - simpl. rewrite (ttl_Duration_exact 0) by (change (2 ^ 63) with 9223372036854775808; lia).
    rewrite Time_Add_seconds by apply Hnow.
    rewrite Time_UnixMilli_shift; [lia | done |].
    change (2 ^ 63) with 9223372036854775808; lia.
Qed.

Lemma Register_record_expiry_witness :
  (Register_begin demo_env "p1" "chat" [] 30 1 demo_now (world (boot "host"))).1.2
  = mkRecord "p1" [] "chat" (Time_UnixMilli demo_now + 30 * 1000)
  ∧ Ttl (Register_begin demo_env "p1" "chat" [] 0 1 demo_now (world (boot "host"))).1.2
    = Time_UnixMilli demo_now.
Proof.
  apply (Register_record_expiry demo_env "p1" "chat" [] 30 1 demo_now (world (boot "host"))).
  - unfold clock_reading, demo_now. simpl. lia.
  - lia.
Defined.

(** C6 as the spec words it fails for a TTL whose nanosecond count leaves
    [int64]: the duration wraps and the expiry lies before the call. *)
Lemma Register_record_expiry_overflow :
  clock_reading demo_now ∧
  Ttl (Register_begin demo_env "p1" "chat" [] 9223372037 1 demo_now (world (boot "host"))).1.2
  ≠ Time_UnixMilli demo_now + 9223372037 * 1000.
Proof.
  split.
  - unfold clock_reading, demo_now. simpl. lia.
  - vm_compute. discriminate.
Qed.

(** ** Unregister and Subscribe *)

(** C9: [Unregister] changes nothing: the registry with every Topic's
    subscriber map and last announcement, and the trace, are what they
    were, whatever the arguments. *)
Theorem Unregister_noop E p ns w σ :
  Unregister p ns w = w
  ∧ step E (ActUnregister p ns) σ = σ
  ∧ (∀ n, subscribers_of n (registry (Unregister p ns w)) = subscribers_of n (registry w))
  ∧ (∀ n, announcement_of n (registry (Unregister p ns w)) = announcement_of n (registry w)).
Proof.
  split; [done |]. split; [by destruct σ |]. done.
Qed.

Lemma string_app_nil_r (s : string) : s +:+ EmptyString = s.
Proof.
  induction s as [| a s IH]; [done |].
  change (String a (s +:+ EmptyString) = String a s). by rewrite IH.
Qed.

Lemma string_app_assoc (s1 s2 s3 : string) : (s1 +:+ s2) +:+ s3 = s1 +:+ s2 +:+ s3.
Proof.
  induction s1 as [| a s1 IH]; [done |].
  change (String a ((s1 +:+ s2) +:+ s3) = String a (s1 +:+ s2 +:+ s3)). by rewrite IH.
Qed.

(** C10: [Subscribe] returns a nil error for every namespace: encoding a
    struct of two string fields meets no unsupported kind, and the result
    is the encoded pair; the world is handed back as it was. *)
Theorem Subscribe_never_fails E ns w :
  Subscribe E ns w
  = (("{" +:+ json_quote E "PeerID" +:+ ":" +:+ json_quote E (ID_String E (host (registry w)))
      +:+ "," +:+ json_quote E "ChannelName" +:+ ":" +:+ json_quote E ns +:+ "}",
      None), w).
Proof.
  unfold Subscribe. simpl.
  change (EmptyString +:+ ?s) with s.
  by rewrite string_app_nil_r, !string_app_assoc.
Qed.

(** ** Well-formedness and the view through [ps.topics] *)

Lemma wf_new h : wf (NewSyncInMemProvider h).
Proof. unfold wf, NewSyncInMemProvider. simpl. repeat split; apply map_Forall_empty. Qed.

Lemma wf_deref ps ns l :
  wf ps → topics ps !! ns = Some l →
  ∃ t m, topic_heap ps !! l = Some t ∧ map_heap ps !! subscribers t = Some m.
Proof.
  intros (W1 & W2 & _) Hl.
  destruct (W1 ns l Hl) as [t Ht]. destruct (W2 l t Ht) as [m Hm]. eauto.
Qed.

Lemma topic_at_lookup ps l t : topic_heap ps !! l = Some t → topic_at l ps = t.
Proof. intros Ht. unfold topic_at. by rewrite lookup_total_alt, Ht. Qed.

Lemma map_at_lookup ps a m : map_heap ps !! a = Some m → map_at a ps = m.
Proof. intros Hm. unfold map_at. by rewrite lookup_total_alt, Hm. Qed.

Lemma subscribers_of_unfold ps ns l t :
  topics ps !! ns = Some l → topic_heap ps !! l = Some t →
  subscribers_of ns ps = map_heap ps !! subscribers t.
Proof. intros Hl Ht. unfold subscribers_of. rewrite Hl. simpl. by rewrite Ht. Qed.

Lemma announcement_of_unfold ps ns l t :
  topics ps !! ns = Some l → topic_heap ps !! l = Some t →
  announcement_of ns ps = lastAnnouncement t.
Proof. intros Hl Ht. unfold announcement_of. rewrite Hl. simpl. by rewrite Ht. Qed.

Lemma subscribers_of_no_topic ps ns : topics ps !! ns = None → subscribers_of ns ps = None.
Proof. intros Hl. unfold subscribers_of. by rewrite Hl. Qed.

Lemma announcement_of_no_topic ps ns : topics ps !! ns = None → announcement_of ns ps = None.
Proof. intros Hl. unfold announcement_of. by rewrite Hl. Qed.

Lemma subscribers_of_Some_inv ps ns m :
  subscribers_of ns ps = Some m →
  ∃ l t, topics ps !! ns = Some l ∧ topic_heap ps !! l = Some t
         ∧ map_heap ps !! subscribers t = Some m.
Proof.
  unfold subscribers_of. intros H.
  destruct (topics ps !! ns) as [l |] eqn:Hl; [| done]. simpl in H.
  destruct (topic_heap ps !! l) as [t |] eqn:Ht; [| done]. simpl in H. eauto.
Qed.

Lemma wf_subscribers_of_is_Some ps ns l :
  wf ps → topics ps !! ns = Some l → is_Some (subscribers_of ns ps).
Proof.
  intros Hwf Hl. destruct (wf_deref ps ns l Hwf Hl) as (t & m & Ht & Hm).
  rewrite (subscribers_of_unfold ps ns l t) by done. eauto.
Qed.

(** *** getOrCreateTopic *)

Lemma getOrCreateTopic_found ns ps l :
  topics ps !! ns = Some l → getOrCreateTopic ns ps = (l, ps).
Proof. intros Hl. unfold getOrCreateTopic. by rewrite Hl. Qed.

Lemma getOrCreateTopic_lookup ns ps :
  topics (getOrCreateTopic ns ps).2 !! ns = Some (getOrCreateTopic ns ps).1.
Proof.
  unfold getOrCreateTopic. destruct (topics ps !! ns) eqn:Hl; simpl; [done |].
  apply lookup_insert_eq.
Qed.

Lemma getOrCreateTopic_topics_mono ns ps :
  topics ps ⊆ topics (getOrCreateTopic ns ps).2.
Proof.
  unfold getOrCreateTopic. destruct (topics ps !! ns) eqn:Hl; simpl; [done |].
  by apply insert_subseteq.
Qed.

Lemma getOrCreateTopic_wf ns ps : wf ps → wf (getOrCreateTopic ns ps).2.
Proof.
  intros Hwf. unfold getOrCreateTopic.
  destruct (topics ps !! ns) eqn:Hl; simpl; [done |].
  destruct Hwf as (W1 & W2 & W3 & W4).
  set (l := fresh (dom (topic_heap ps))). set (m := fresh (dom (map_heap ps))).
  assert (topic_heap ps !! l = None) as Hfl by (apply not_elem_of_dom, is_fresh).
  assert (map_heap ps !! m = None) as Hfm by (apply not_elem_of_dom, is_fresh).
  unfold wf; simpl. repeat split.
  - intros n x [[-> ->] | [Hne Hx]]%lookup_insert_Some.
    + rewrite lookup_insert_eq. eauto.
    + destruct (W1 n x Hx) as [t Ht]. rewrite lookup_insert_ne; [eauto | congruence].
  - intros n x [[-> <-] | [Hne Hx]]%lookup_insert_Some; simpl.
    + rewrite lookup_insert_eq. eauto.
    + destruct (W2 n x Hx) as [t Ht]. rewrite lookup_insert_ne; [eauto | congruence].
  - intros n1 x1 [[-> ->] | [Hne1 Hx1]]%lookup_insert_Some
           n2 x2 [[-> ->] | [Hne2 Hx2]]%lookup_insert_Some Heq; subst.
    + done.
    + destruct (W1 n2 _ Hx2) as [t Ht]. congruence.
    + destruct (W1 n1 _ Hx1) as [t Ht]. congruence.
    + by apply (W3 n1 x2 Hx1 n2 x2 Hx2).
  - intros n1 x1 [[-> <-] | [Hne1 Hx1]]%lookup_insert_Some
           n2 x2 [[-> <-] | [Hne2 Hx2]]%lookup_insert_Some Heq; simpl in *.
    + done.
    + destruct (W2 n2 _ Hx2) as [t Ht]. congruence.
    + destruct (W2 n1 _ Hx1) as [t Ht]. congruence.
    + by apply (W4 n1 x1 Hx1 n2 x2 Hx2).
Qed.

Lemma getOrCreateTopic_subscribers ns ps n :
  wf ps →
  subscribers_of n (getOrCreateTopic ns ps).2
  = if decide (n = ns) then Some (default ∅ (subscribers_of ns ps)) else subscribers_of n ps.
Proof.
  intros Hwf. unfold getOrCreateTopic.
  destruct (topics ps !! ns) as [l |] eqn:Hl; simpl.
  - case_decide as Hn; [subst n | done].
    by destruct (wf_subscribers_of_is_Some ps ns l Hwf Hl) as [m ->].
  - assert (topic_heap ps !! fresh (dom (topic_heap ps)) = None) as Hfl
      by (apply not_elem_of_dom, is_fresh).
    assert (map_heap ps !! fresh (dom (map_heap ps)) = None) as Hfm
      by (apply not_elem_of_dom, is_fresh).
    case_decide as Hn; [subst n |].
    + rewrite (subscribers_of_no_topic ps ns Hl). simpl.
      unfold subscribers_of; simpl. rewrite lookup_insert_eq. simpl.
      rewrite lookup_insert_eq. simpl. by rewrite lookup_insert_eq.
    + unfold subscribers_of; simpl. rewrite lookup_insert_ne by done.
      destruct (topics ps !! n) as [l' |] eqn:Hl'; simpl; [| done].
      destruct (wf_deref ps n l' Hwf Hl') as (t & m & Ht & Hm).
      rewrite lookup_insert_ne by congruence. rewrite Ht. simpl.
      rewrite lookup_insert_ne by congruence. done.
Qed.

Lemma getOrCreateTopic_announcement ns ps n :
  wf ps → announcement_of n (getOrCreateTopic ns ps).2 = announcement_of n ps.
Proof.
  intros Hwf. unfold getOrCreateTopic.
  destruct (topics ps !! ns) as [l |] eqn:Hl; simpl; [done |].
  assert (topic_heap ps !! fresh (dom (topic_heap ps)) = None) as Hfl
    by (apply not_elem_of_dom, is_fresh).
  unfold announcement_of; simpl.
  destruct (decide (n = ns)) as [-> | Hn].
  - rewrite lookup_insert_eq, Hl. simpl. by rewrite lookup_insert_eq.
  - rewrite lookup_insert_ne by done.
    destruct (topics ps !! n) as [l' |] eqn:Hl'; simpl; [| done].
    destruct (wf_deref ps n l' Hwf Hl') as (t & m & Ht & Hm).
    rewrite lookup_insert_ne by congruence. done.
Qed.

(** *** Writes through a Topic pointer and through a map reference *)

Lemma set_lastAnnouncement_wf l a ps : wf ps → wf (set_lastAnnouncement l a ps).
Proof.
  intros (W1 & W2 & W3 & W4). unfold wf, set_lastAnnouncement; simpl.
  assert (∀ x t, alter (λ t, mkTopic (subscribers t) (Some a)) l (topic_heap ps) !! x = Some t →
                 ∃ t0, topic_heap ps !! x = Some t0 ∧ subscribers t0 = subscribers t) as Hback.
  { intros x t. rewrite lookup_alter. case_decide as Hx.
    - subst x. destruct (topic_heap ps !! l) as [t0 |]; simpl; [| done].
      intros [= <-]. eauto.
    - eauto. }
  repeat split.
  - intros n x Hx. destruct (W1 n x Hx) as [t Ht].
    rewrite lookup_alter. case_decide; [subst; rewrite Ht; simpl |]; eauto.
  - intros x t (t0 & Ht0 & <-)%Hback. by apply (W2 x t0).
  - done.
  - intros x1 t1 (u1 & Hu1 & <-)%Hback x2 t2 (u2 & Hu2 & <-)%Hback.
    by apply (W4 x1 u1 Hu1 x2 u2 Hu2).
Qed.

Lemma set_lastAnnouncement_subscribers l a ps n :
  subscribers_of n (set_lastAnnouncement l a ps) = subscribers_of n ps.
Proof.
  unfold subscribers_of, set_lastAnnouncement; simpl.
  destruct (topics ps !! n) as [x |]; simpl; [| done].
  rewrite lookup_alter. case_decide; [subst x |]; [| done].
  by destruct (topic_heap ps !! l).
Qed.

Lemma set_lastAnnouncement_announcement ns l a ps n :
  wf ps → topics ps !! ns = Some l →
  announcement_of n (set_lastAnnouncement l a ps)
  = if decide (n = ns) then Some a else announcement_of n ps.
Proof.
  intros Hwf Hl. destruct (wf_deref ps ns l Hwf Hl) as (t & m & Ht & Hm).
  unfold announcement_of, set_lastAnnouncement; simpl.
  case_decide as Hn.
  - subst n. rewrite Hl; simpl. by rewrite lookup_alter_eq, Ht.
  - destruct (topics ps !! n) as [x |] eqn:Hx; simpl; [| done].
    rewrite lookup_alter_ne; [done |].
    intros ->. destruct Hwf as (_ & _ & W3 & _). by specialize (W3 ns x Hl n x Hx eq_refl).
Qed.

Lemma set_lastAnnouncement_set l a ps t :
  topic_heap ps !! l = Some t →
  topic_heap (set_lastAnnouncement l a ps) !! l = Some (mkTopic (subscribers t) (Some a)).
Proof. intros Ht. unfold set_lastAnnouncement; simpl. by rewrite lookup_alter_eq, Ht. Qed.

(** The registry after [f] is applied to the map object at [a]. *)
Lemma map_alter_wf f a ps :
  wf ps → wf (mkPubSub (host ps) (topics ps) (topic_heap ps) (alter f a (map_heap ps))).
Proof.
  intros (W1 & W2 & W3 & W4). unfold wf; simpl. repeat split; [done | | done | done].
  intros x t Ht. destruct (W2 x t Ht) as [m Hm].
  rewrite lookup_alter. case_decide as Ha; [| eauto]. subst a. rewrite Hm. simpl. eauto.
Qed.

Lemma map_alter_subscribers f ps ns l n :
  wf ps → topics ps !! ns = Some l →
  subscribers_of n (mkPubSub (host ps) (topics ps) (topic_heap ps)
                     (alter f (subscribers (topic_at l ps)) (map_heap ps)))
  = if decide (n = ns) then f <$> subscribers_of ns ps else subscribers_of n ps.
Proof.
  intros Hwf Hl. destruct (wf_deref ps ns l Hwf Hl) as (t & m & Ht & Hm).
  rewrite (topic_at_lookup ps l t Ht).
  unfold subscribers_of; simpl. case_decide as Hn.
  - subst n. rewrite Hl; simpl. rewrite Ht; simpl. by rewrite lookup_alter_eq.
  - destruct (topics ps !! n) as [x |] eqn:Hx; simpl; [| done].
    destruct (topic_heap ps !! x) as [t' |] eqn:Ht'; simpl; [| done].
    rewrite lookup_alter_ne; [done |].
    intros Heq. destruct Hwf as (_ & _ & W3 & W4).
    specialize (W4 l t Ht x t' Ht' Heq). subst x.
    by specialize (W3 ns l Hl n l Hx eq_refl).
Qed.

Lemma map_alter_announcement f a ps n :
  announcement_of n (mkPubSub (host ps) (topics ps) (topic_heap ps) (alter f a (map_heap ps)))
  = announcement_of n ps.
Proof. done. Qed.

(** *** Register, up to the release of the Topic's mutex *)

Lemma Register_begin_spec E pid ns addrs ttl counter now w :
  wf (registry w) →
  ∃ toNotify w1 l t,
    Register_begin E pid ns addrs ttl counter now w
    = ((toNotify, Register_record E pid ns addrs ttl now), w1)
    ∧ wf (registry w1) ∧ trace w1 = trace w
    ∧ topics (registry w) ⊆ topics (registry w1)
    ∧ topics (registry w1) !! ns = Some l
    ∧ topic_heap (registry w1) !! l = Some t
    ∧ subscribers t = toNotify
    ∧ (∀ n, subscribers_of n (registry w1)
            = if decide (n = ns) then Some (default ∅ (subscribers_of ns (registry w)))
              else subscribers_of n (registry w))
    ∧ (∀ n, announcement_of n (registry w1)
            = if decide (n = ns) then Some (Register_record E pid ns addrs ttl now)
              else announcement_of n (registry w)).
Proof.
  intros Hwf. unfold Register_begin, Register_publish.
  pose proof (getOrCreateTopic_lookup ns (registry w)) as Hl.
  pose proof (getOrCreateTopic_wf ns (registry w) Hwf) as Hwf1.
  pose proof (getOrCreateTopic_topics_mono ns (registry w)) as Hmono.
  pose proof (getOrCreateTopic_subscribers ns (registry w)) as Hsub.
  pose proof (getOrCreateTopic_announcement ns (registry w)) as Hann.
  destruct (getOrCreateTopic ns (registry w)) as [l ps1]. simpl in *.
  destruct (wf_deref ps1 ns l Hwf1 Hl) as (t & m & Ht & Hm).
  set (d := Register_record E pid ns addrs ttl now).
  pose proof (set_lastAnnouncement_set l d ps1 t Ht) as Ht'.
  eexists _, _, l, _. split; [reflexivity |]. simpl.
  split; [by apply set_lastAnnouncement_wf |].
  split; [done |]. split; [done |]. split; [done |].
  split; [exact Ht' |].
  split; [by rewrite (topic_at_lookup _ l _ Ht') |].
  split.
  - intros n. rewrite set_lastAnnouncement_subscribers. by apply Hsub.
  - intros n. rewrite (set_lastAnnouncement_announcement ns) by done.
    case_decide; [done |]. by apply Hann.
Qed.

(** *** The broadcast loop *)

Lemma notify_registry E d es w : registry (notify E d es w) = registry w.
Proof.
  revert w. induction es as [| [p wr] es IH]; intros w; simpl; [done |].
  rewrite IH. by destruct (WriteMsg_err E wr d (trace w)).
Qed.

Lemma notify_trace E d es w :
  ∃ tail, trace (notify E d es w) = trace w ++ tail
    ∧ writes_in tail = (λ e, (e.2, d)) <$> es
    ∧ ∀ pre wr post e,
        tail = pre ++ EvWrite wr d :: post →
        WriteMsg_err E wr d (trace w ++ pre) = Some e →
        ∃ post', post = EvLog ("unable to notify rendezvous data update: " +:+ e) :: post'.
Proof.
  revert w. induction es as [| [p wr0] es IH]; intros w; simpl.
  - exists []. rewrite app_nil_r. split; [done |]. split; [done |].
    intros [| ? ?] ? ? ? ?; done.
  - destruct (WriteMsg_err E wr0 d (trace w)) as [e0 |] eqn:Herr.
    + destruct (IH (log_Errorf ("unable to notify rendezvous data update: " +:+ e0)
                      (mkWorld (registry w) (trace w ++ [EvWrite wr0 d]))))
        as (tail & Htr & Hwr & Hlog).
      simpl in Htr, Hlog.
      exists (EvWrite wr0 d :: EvLog ("unable to notify rendezvous data update: " +:+ e0) :: tail).
      split; [by rewrite Htr, <- !app_assoc |].
      split; [simpl; by rewrite Hwr |].
      intros pre wr post e Hdec He.
      destruct pre as [| x pre]; simpl in Hdec.
      * injection Hdec as <- <-. rewrite app_nil_r in He. rewrite Herr in He.
        injection He as <-. eauto.
      * injection Hdec as <- Hdec.
        destruct pre as [| y pre]; simpl in Hdec; [done |].
        injection Hdec as <- Hdec.
        apply (Hlog pre wr post e Hdec).
        by rewrite <- !app_assoc.
    + destruct (IH (mkWorld (registry w) (trace w ++ [EvWrite wr0 d])))
        as (tail & Htr & Hwr & Hlog).
      simpl in Htr, Hlog.
      exists (EvWrite wr0 d :: tail).
      split; [by rewrite Htr, <- !app_assoc |].
      split; [simpl; by rewrite Hwr |].
      intros pre wr post e Hdec He.
      destruct pre as [| x pre]; simpl in Hdec.
      * injection Hdec as <- <-. rewrite app_nil_r in He. congruence.
      * injection Hdec as <- Hdec.
        apply (Hlog pre wr post e Hdec).
        by rewrite <- !app_assoc.
Qed.

Lemma writes_in_elem tail wr d :
  (wr, d) ∈ writes_in tail → EvWrite wr d ∈ tail.
Proof.
  unfold writes_in. intros (e & He & Heq)%list_elem_of_omap.
  destruct e; simplify_eq. done.
Qed.

(** *** An uninterrupted Register call *)

Lemma Register_spec E pid ns addrs ttl counter now w :
  range_complete E → wf (registry w) →
  let d := Register_record E pid ns addrs ttl now in
  let w' := Register E pid ns addrs ttl counter now w in
  registry w' = registry (Register_begin E pid ns addrs ttl counter now w).2
  ∧ wf (registry w')
  ∧ (∀ n, subscribers_of n (registry w')
          = if decide (n = ns) then Some (default ∅ (subscribers_of ns (registry w)))
            else subscribers_of n (registry w))
  ∧ (∀ n, announcement_of n (registry w')
          = if decide (n = ns) then Some d else announcement_of n (registry w))
  ∧ ∃ tail, trace w' = trace w ++ tail
      ∧ writes_in tail
        ≡ₚ (λ e, (e.2, d)) <$> map_to_list (default ∅ (subscribers_of ns (registry w)))
      ∧ ∀ pre wr post e,
          tail = pre ++ EvWrite wr d :: post →
          WriteMsg_err E wr d (trace w ++ pre) = Some e →
          ∃ post', post = EvLog ("unable to notify rendezvous data update: " +:+ e) :: post'.
Proof.
  intros [Hrange _] Hwf d w'. subst w'. unfold Register.
  destruct (Register_begin_spec E pid ns addrs ttl counter now w Hwf)
    as (tn & w1 & l & t & Heq & Hwf1 & Htr & _ & Hl & Ht & Htn & Hsub & Hann).
  rewrite Heq. simpl. unfold Register_notify. rewrite notify_registry.
  split; [done |]. split; [done |]. split; [done |]. split; [done |].
  assert (map_at tn (registry w1) = default ∅ (subscribers_of ns (registry w))) as Hmap.
  { pose proof (Hsub ns) as Hns. rewrite decide_True in Hns by done.
    rewrite (subscribers_of_unfold _ ns l t Hl Ht), Htn in Hns.
    by apply map_at_lookup. }
  rewrite Hmap.
  destruct (notify_trace E (Register_record E pid ns addrs ttl now)
              (range_subscribers E (default ∅ (subscribers_of ns (registry w)))) w1)
    as (tail & Htail & Hwr & Hlog).
  exists tail. rewrite Htail, Htr. split; [done |].
  split; [by rewrite Hwr, Hrange |].
  intros pre wr post e Hdec He. apply (Hlog pre wr post e Hdec). by rewrite Htr.
Qed.

(** ** Broadcast failures *)

(** C3: in a [Register] call, whichever writes fail, the loop leaves the
    registry as it was when the Topic's mutex was released, so the
    subscriber map keeps every entry; every subscriber's writer gets its
    write attempt; a failed write is followed by its log line; and the
    next [Register] call attempts a write to every one of them again. *)
Theorem Register_write_failure_isolated E pid ns addrs ttl counter now
    pid2 addrs2 ttl2 counter2 now2 w m :
  range_complete E → wf (registry w) → subscribers_of ns (registry w) = Some m →
  let d := Register_record E pid ns addrs ttl now in
  let w1 := Register E pid ns addrs ttl counter now w in
  let d2 := Register_record E pid2 ns addrs2 ttl2 now2 in
  let w2 := Register E pid2 ns addrs2 ttl2 counter2 now2 w1 in
  registry w1 = registry (Register_begin E pid ns addrs ttl counter now w).2
  ∧ (∀ n, subscribers_of n (registry w1) = subscribers_of n (registry w))
  ∧ (∃ tail, trace w1 = trace w ++ tail
       ∧ (∀ p wr, m !! p = Some wr → EvWrite wr d ∈ tail)
       ∧ ∀ pre wr post e,
           tail = pre ++ EvWrite wr d :: post →
           WriteMsg_err E wr d (trace w ++ pre) = Some e →
           ∃ post', post = EvLog ("unable to notify rendezvous data update: " +:+ e) :: post')
  ∧ (∃ tail2, trace w2 = trace w1 ++ tail2
       ∧ ∀ p wr, m !! p = Some wr → EvWrite wr d2 ∈ tail2).
Proof.
  intros Hrange Hwf Hm d w1 d2 w2.
  destruct (Register_spec E pid ns addrs ttl counter now w Hrange Hwf)
    as (Hreg & Hwf1 & Hsub & _ & tail & Htail & Hwr & Hlog).
  fold w1 in Hreg, Hwf1, Hsub, Htail. fold d in Hwr, Hlog.
  assert (∀ n, subscribers_of n (registry w1) = subscribers_of n (registry w)) as Hsame.
  { intros n. rewrite Hsub. case_decide; [subst n; by rewrite Hm | done]. }
  split; [done |]. split; [done |]. split.
  - exists tail. split; [done |]. split; [| done].
    intros p wr Hp. apply writes_in_elem. rewrite Hwr, Hm. simpl.
    apply list_elem_of_fmap. exists (p, wr). split; [done |].
    by apply elem_of_map_to_list.
  - destruct (Register_spec E pid2 ns addrs2 ttl2 counter2 now2 w1 Hrange Hwf1)
      as (_ & _ & _ & _ & tail2 & Htail2 & Hwr2 & _).
    fold w2 in Htail2. fold d2 in Hwr2.
    exists tail2. split; [done |].
    intros p wr Hp. apply writes_in_elem. rewrite Hwr2, Hsame, Hm. simpl.
    apply list_elem_of_fmap. exists (p, wr). split; [done |].
    by apply elem_of_map_to_list.
Qed.

Lemma range_complete_demo : range_complete demo_env.
Proof. by split. Qed.

Lemma Register_write_failure_isolated_witness :
  range_complete demo_env
  ∧ wf (registry (world demo_subscribed))
  ∧ subscribers_of "chat" (registry (world demo_subscribed)) = Some demo_chat
  ∧ ∃ tail2,
      trace (Register demo_env "p2" "chat" [] 60 2 demo_now
               (Register demo_env "p1" "chat" [] 30 1 demo_now (world demo_subscribed)))
      = trace (Register demo_env "p1" "chat" [] 30 1 demo_now (world demo_subscribed)) ++ tail2
      ∧ ∀ p wr, demo_chat !! p = Some wr →
                EvWrite wr (Register_record demo_env "p2" "chat" [] 60 demo_now) ∈ tail2.
Proof.
  assert (range_complete demo_env) as H1 by (by split).
  assert (wf (registry (world demo_subscribed))) as H2
    by (apply (bool_decide_unpack _); vm_compute; exact I).
  assert (subscribers_of "chat" (registry (world demo_subscribed)) = Some demo_chat) as H3
    by (vm_compute; reflexivity).
  split; [exact H1 |]. split; [exact H2 |]. split; [exact H3 |].
  exact (proj2 (proj2 (proj2
    (Register_write_failure_isolated demo_env "p1" "chat" [] 30 1 demo_now
       "p2" [] 60 2 demo_now (world demo_subscribed) demo_chat H1 H2 H3)))).
Defined.

(** ** The stream handler *)

Lemma handle_read_other E s code ns w :
  handle_read E s (ReadMsg (mkMessage (Message_OTHER code) ns)) w = (s, Reading, w).
Proof. reflexivity. Qed.

Lemma handle_read_subscribe_dup E s ns w m wr :
  subscribers_of ns (registry w) = Some m → m !! RemotePeer s = Some wr →
  handle_read E s (discover_subscribe ns) w = (s, Reading, w).
Proof.
  intros Hm Hp. destruct (subscribers_of_Some_inv _ _ _ Hm) as (l & t & Hl & Ht & Hmap).
  unfold handle_read, discover_subscribe. simpl.
  rewrite (getOrCreateTopic_found ns _ l Hl).
  rewrite (topic_at_lookup _ l t Ht), (map_at_lookup _ _ m Hmap), Hp.
  by destruct w.
Qed.

Lemma handle_read_subscribe_new E s ns w :
  wf (registry w) →
  default ∅ (subscribers_of ns (registry w)) !! RemotePeer s = None →
  ∃ w', handle_read E s (discover_subscribe ns) w
        = (mkSession (stream s) (RemotePeer s) ({[ns]} ∪ subscribedTopics s), Reading, w')
    ∧ wf (registry w')
    ∧ topics (registry w) ⊆ topics (registry w')
    ∧ (∀ n, subscribers_of n (registry w')
            = if decide (n = ns)
              then Some (<[RemotePeer s := stream s]> (default ∅ (subscribers_of ns (registry w))))
              else subscribers_of n (registry w))
    ∧ (∀ n, announcement_of n (registry w') = announcement_of n (registry w))
    ∧ trace w'
      = trace w ++
        match announcement_of ns (registry w) with
        | None => []
        | Some a =>
            EvWrite (stream s) a ::
            match WriteMsg_err E (stream s) a (trace w) with
            | Some e => [EvLog ("unable to write announcement: " +:+ e)]
            | None => []
            end
        end.
Proof.
  intros Hwf Hp. unfold handle_read, discover_subscribe. simpl.
  pose proof (getOrCreateTopic_lookup ns (registry w)) as Hl.
  pose proof (getOrCreateTopic_wf ns (registry w) Hwf) as Hwf1.
  pose proof (getOrCreateTopic_topics_mono ns (registry w)) as Hmono.
  pose proof (getOrCreateTopic_subscribers ns (registry w)) as Hsub.
  pose proof (getOrCreateTopic_announcement ns (registry w)) as Hann.
  destruct (getOrCreateTopic ns (registry w)) as [l ps1]. simpl in *.
  destruct (wf_deref ps1 ns l Hwf1 Hl) as (t & m & Ht & Hm).
  assert (m = default ∅ (subscribers_of ns (registry w))) as ->.
  { pose proof (Hsub ns Hwf) as Hns. rewrite decide_True in Hns by done.
    rewrite (subscribers_of_unfold _ ns l t Hl Ht), Hm in Hns. congruence. }
  rewrite (topic_at_lookup ps1 l t Ht), (map_at_lookup ps1 _ _ Hm), Hp.
  assert (topic_at l (map_store (subscribers t) (RemotePeer s) (stream s) ps1) = t) as Ht'
    by (by apply topic_at_lookup).
  rewrite Ht'.
  assert (announcement_of ns (registry w) = lastAnnouncement t) as Hlast.
  { rewrite <- (Hann ns Hwf). by apply announcement_of_unfold with l. }
  pose proof (map_alter_wf (insert (RemotePeer s) (stream s)) (subscribers t) ps1 Hwf1) as Hwf2.
  assert (∀ n, subscribers_of n (map_store (subscribers t) (RemotePeer s) (stream s) ps1)
               = if decide (n = ns)
                 then Some (<[RemotePeer s := stream s]> (default ∅ (subscribers_of ns (registry w))))
                 else subscribers_of n (registry w)) as Hsub2.
  { intros n. unfold map_store.
    pose proof (map_alter_subscribers (insert (RemotePeer s) (stream s)) ps1 ns l n Hwf1 Hl) as Hn.
    rewrite (topic_at_lookup ps1 l t Ht) in Hn. rewrite Hn.
    case_decide as Hd.
    - rewrite (Hsub ns Hwf), decide_True by done. done.
    - rewrite (Hsub n Hwf), decide_False by done. done. }
  rewrite Hlast.
  destruct (lastAnnouncement t) as [a |].
  - eexists. split; [reflexivity |].
    destruct (WriteMsg_err E (stream s) a (trace w)) as [e |]; simpl;
      (split; [exact Hwf2 |]); (split; [exact Hmono |]); (split; [exact Hsub2 |]);
      (split; [intros n; by apply Hann |]).
    + by rewrite <- app_assoc.
    + done.
  - eexists. split; [reflexivity |]. simpl.
    split; [exact Hwf2 |]. split; [exact Hmono |]. split; [exact Hsub2 |].
    split; [intros n; by apply Hann |]. by rewrite app_nil_r.
Qed.

(** *** Cleanup after a failed read *)

Lemma leave_topics_spec p nss ps :
  wf ps →
  wf (leave_topics p nss ps)
  ∧ topics ps ⊆ topics (leave_topics p nss ps)
  ∧ (∀ n, announcement_of n (leave_topics p nss ps) = announcement_of n ps)
  ∧ (∀ n, subscribers_of n (leave_topics p nss ps)
          = if decide (n ∈ nss) then Some (delete p (default ∅ (subscribers_of n ps)))
            else subscribers_of n ps).
Proof.
  revert ps. induction nss as [| ns nss IH]; intros ps Hwf.
  - simpl. split; [done |]. split; [done |]. split; done.
  - cbn [leave_topics].
    pose proof (getOrCreateTopic_lookup ns ps) as Hl.
    pose proof (getOrCreateTopic_wf ns ps Hwf) as Hwf1.
    pose proof (getOrCreateTopic_topics_mono ns ps) as Hmono.
    pose proof (getOrCreateTopic_subscribers ns ps) as Hsub.
    pose proof (getOrCreateTopic_announcement ns ps) as Hann.
    destruct (getOrCreateTopic ns ps) as [l ps1]. simpl in *.
    pose proof (map_alter_wf (delete p) (subscribers (topic_at l ps1)) ps1 Hwf1) as Hwf2.
    pose proof (map_alter_subscribers (delete p) ps1 ns l) as Hsub2.
    fold (map_delete (subscribers (topic_at l ps1)) p ps1) in Hwf2, Hsub2.
    destruct (IH _ Hwf2) as (Hwf3 & Hmono3 & Hann3 & Hsub3).
    split; [done |]. split; [by etrans |].
    split; [intros n; rewrite Hann3; by apply Hann |].
    intros n. rewrite Hsub3, (Hsub2 n Hwf1 Hl), !(Hsub _ Hwf).
    destruct (decide (n = ns)) as [-> | Hne].
    + simpl. rewrite (decide_True (P := ns ∈ ns :: nss)) by apply list_elem_of_here.
      rewrite !(decide_True (P := ns = ns)) by done.
      case_decide; simpl; [by rewrite delete_delete_eq | done].
    + destruct (decide (n ∈ nss)) as [Hin | Hnin].
      * rewrite (decide_True (P := n ∈ ns :: nss)); [done |]. by apply list_elem_of_further.
      * rewrite (decide_False (P := n ∈ ns :: nss)); [done |].
        intros [? | ?]%elem_of_cons; done.
Qed.

Lemma handle_read_error E s err w :
  range_complete E → wf (registry w) →
  ∃ w', handle_read E s (ReadErr err) w = (s, Terminated, w')
    ∧ wf (registry w')
    ∧ topics (registry w) ⊆ topics (registry w')
    ∧ (∀ n, announcement_of n (registry w') = announcement_of n (registry w))
    ∧ (∀ n, subscribers_of n (registry w')
            = if decide (n ∈ subscribedTopics s)
              then Some (delete (RemotePeer s) (default ∅ (subscribers_of n (registry w))))
              else subscribers_of n (registry w))
    ∧ trace w' = trace w ++ [EvReset (stream s)].
Proof.
  intros [_ Hrange] Hwf. eexists. split; [reflexivity |]. simpl.
  destruct (leave_topics_spec (RemotePeer s) (range_topics E (subscribedTopics s))
              (registry w) Hwf) as (Hwf' & Hmono & Hann & Hsub).
  split; [done |]. split; [done |]. split; [done |]. split; [| done].
  intros n. rewrite Hsub.
  destruct (decide (n ∈ subscribedTopics s)) as [Hin | Hnin].
  - rewrite decide_True; [done |]. rewrite Hrange. by apply elem_of_elements.
  - rewrite decide_False; [done |]. rewrite Hrange. by rewrite elem_of_elements.
Qed.

Lemma handle_reads_error E s err rest w :
  handle_reads E s (ReadErr err :: rest) w = handle_read E s (ReadErr err) w.
Proof. reflexivity. Qed.

Lemma handle_reads_continue E s r rest w s' w' :
  handle_read E s r w = (s', Reading, w') →
  handle_reads E s (r :: rest) w = handle_reads E s' rest w'.
Proof. intros H. cbn [handle_reads]. by rewrite H. Qed.

(** C2: when the read of a session fails, the peer is deleted from the
    subscriber map of every namespace in the session's joined-set, the
    subscriber map of every other namespace is what it was, and the
    handler returns: the stream is reset and no later read is served. *)
Theorem read_failure_cleanup E s err rest w :
  range_complete E → wf (registry w) →
  ∃ w', handle_reads E s (ReadErr err :: rest) w = (s, Terminated, w')
    ∧ (∀ ns, ns ∈ subscribedTopics s →
         subscribers_of ns (registry w')
         = Some (delete (RemotePeer s) (default ∅ (subscribers_of ns (registry w))))
         ∧ ∀ m, subscribers_of ns (registry w') = Some m → m !! RemotePeer s = None)
    ∧ (∀ ns, ns ∉ subscribedTopics s →
         subscribers_of ns (registry w') = subscribers_of ns (registry w))
    ∧ trace w' = trace w ++ [EvReset (stream s)].
Proof.
  intros Hrange Hwf.
  destruct (handle_read_error E s err w Hrange Hwf)
    as (w' & Heq & _ & _ & _ & Hsub & Htr).
  exists w'. rewrite handle_reads_error. split; [done |].
  split; [| split; [| done]].
  - intros ns Hin. rewrite Hsub, decide_True by done. split; [done |].
    intros m [= <-]. apply lookup_delete_eq.
  - intros ns Hnin. by rewrite Hsub, decide_False.
Qed.

Lemma read_failure_cleanup_witness :
  range_complete demo_env ∧ wf (registry (world demo_subscribed))
  ∧ ∃ w', handle_reads demo_env demo_session [ReadErr "EOF"; discover_subscribe "news"]
            (world demo_subscribed) = (demo_session, Terminated, w')
      ∧ subscribers_of "chat" (registry w') = Some {["C" := 2%nat]}.
Proof.
  assert (range_complete demo_env) as H1 by (by split).
  assert (wf (registry (world demo_subscribed))) as H2
    by (apply (bool_decide_unpack _); vm_compute; exact I).
  split; [exact H1 |]. split; [exact H2 |].
  destruct (read_failure_cleanup demo_env demo_session "EOF" [discover_subscribe "news"]
              (world demo_subscribed) H1 H2) as (w' & Heq & Hin & _).
  exists w'. split; [exact Heq |].
  destruct (Hin "chat") as [Hsub _].
  - vm_compute. reflexivity.
  - rewrite Hsub. vm_compute. reflexivity.
Defined.

(** ** Subscribing *)

(** C5: a discover/subscribe request that adds the peer to a Topic with a
    last announcement writes that announcement to the peer's own writer
    right away; when the write fails the error is logged and the handler
    goes on to its next read. *)
Theorem subscribe_pushes_lastAnnouncement E s ns w a rest :
  wf (registry w) →
  default ∅ (subscribers_of ns (registry w)) !! RemotePeer s = None →
  announcement_of ns (registry w) = Some a →
  ∃ w', handle_read E s (discover_subscribe ns) w
        = (mkSession (stream s) (RemotePeer s) ({[ns]} ∪ subscribedTopics s), Reading, w')
    ∧ subscribers_of ns (registry w')
      = Some (<[RemotePeer s := stream s]> (default ∅ (subscribers_of ns (registry w))))
    ∧ trace w'
      = trace w ++ EvWrite (stream s) a ::
        match WriteMsg_err E (stream s) a (trace w) with
        | Some e => [EvLog ("unable to write announcement: " +:+ e)]
        | None => []
        end
    ∧ handle_reads E s (discover_subscribe ns :: rest) w
      = handle_reads E (mkSession (stream s) (RemotePeer s) ({[ns]} ∪ subscribedTopics s))
                     rest w'.
Proof.
  intros Hwf Hp Ha.
  destruct (handle_read_subscribe_new E s ns w Hwf Hp)
    as (w' & Heq & _ & _ & Hsub & _ & Htr).
  exists w'. split; [done |].
  split; [by rewrite Hsub, decide_True |].
  split; [by rewrite Htr, Ha |].
  by apply handle_reads_continue.
Qed.

Lemma subscribe_pushes_lastAnnouncement_witness :
  wf (registry demo_registered)
  ∧ ∃ w', handle_reads demo_env (mkSession 1 "B" ∅) [discover_subscribe "chat"; ReadErr "EOF"]
            demo_registered
          = handle_reads demo_env demo_session [ReadErr "EOF"] w'
      ∧ trace w'
        = [EvWrite 1 (Register_record demo_env "p1" "chat" [] 30 demo_now);
           EvLog "unable to write announcement: broken pipe"].
Proof.
  assert (wf (registry demo_registered)) as H1
    by (apply (bool_decide_unpack _); vm_compute; exact I).
  assert (default ∅ (subscribers_of "chat" (registry demo_registered))
            !! RemotePeer (mkSession 1 "B" ∅) = None) as H2
    by (vm_compute; reflexivity).
  assert (announcement_of "chat" (registry demo_registered)
          = Some (Register_record demo_env "p1" "chat" [] 30 demo_now)) as H3
    by (vm_compute; reflexivity).
  split; [exact H1 |].
  destruct (subscribe_pushes_lastAnnouncement demo_env (mkSession 1 "B" ∅) "chat"
              demo_registered _ [ReadErr "EOF"] H1 H2 H3) as (w' & _ & _ & Htr & Hgo).
  exists w'. split.
  - rewrite Hgo. reflexivity.
  - rewrite Htr. reflexivity.
Defined.

Lemma entries_for_le_1 p (m : gmap string nat) : (entries_for p m ≤ 1)%nat.
Proof.
  unfold entries_for. pose proof (NoDup_fst_map_to_list m) as Hnd.
  induction (map_to_list m) as [| [k v] l IH]; simpl; [lia |].
  apply NoDup_cons in Hnd as [Hk Hnd]. specialize (IH Hnd).
  rewrite filter_cons. simpl. case_decide as Hkp; [| done].
  subst k. simpl.
  assert (filter (λ e : string * nat, e.1 = p) l = []) as ->; [| simpl; lia].
  destruct (filter (λ e : string * nat, e.1 = p) l) as [| [k' v'] f] eqn:Hf; [done |].
  assert ((k', v') ∈ filter (λ e : string * nat, e.1 = p) l) as Hin
    by (rewrite Hf; apply list_elem_of_here).
  apply list_elem_of_filter in Hin as [Hk' Hin]. simpl in Hk'. subst k'.
  destruct Hk. apply list_elem_of_fmap. by exists (p, v').
Qed.

Lemma entries_for_member p wr (m : gmap string nat) : m !! p = Some wr → entries_for p m = 1%nat.
Proof.
  intros Hp. pose proof (entries_for_le_1 p m) as Hle.
  assert ((p, wr) ∈ filter (λ e : string * nat, e.1 = p) (map_to_list m)) as Hin.
  { apply list_elem_of_filter. split; [done |]. by apply elem_of_map_to_list. }
  unfold entries_for in *.
  destruct (filter (λ e : string * nat, e.1 = p) (map_to_list m)); [| simpl in *; lia].
  by apply not_elem_of_nil in Hin.
Qed.

Lemma handle_reads_dup E s ns w m wr k :
  subscribers_of ns (registry w) = Some m → m !! RemotePeer s = Some wr →
  handle_reads E s (replicate k (discover_subscribe ns)) w = (s, Reading, w).
Proof.
  intros Hm Hp. induction k as [| k IH]; [done |].
  cbn [replicate]. rewrite (handle_reads_continue E s _ _ w s w); [done |].
  by apply handle_read_subscribe_dup with m wr.
Qed.

(** ** What every step preserves *)

Lemma handle_read_frame E s r w :
  wf (registry w) →
  wf (registry (handle_read E s r w).2)
  ∧ topics (registry w) ⊆ topics (registry (handle_read E s r w).2)
  ∧ ∀ n, announcement_of n (registry (handle_read E s r w).2) = announcement_of n (registry w).
Proof.
  intros Hwf. destruct r as [err | [[| code] ns]].
  - unfold handle_read. simpl.
    destruct (leave_topics_spec (RemotePeer s) (range_topics E (subscribedTopics s))
                (registry w) Hwf) as (? & ? & ? & _).
    done.
  - change (ReadMsg (mkMessage Message_DISCOVER_SUBSCRIBE ns)) with (discover_subscribe ns).
    destruct (default ∅ (subscribers_of ns (registry w)) !! RemotePeer s) as [wr |] eqn:Hp.
    + destruct (subscribers_of ns (registry w)) as [m |] eqn:Hm; [| done].
      rewrite (handle_read_subscribe_dup E s ns w m wr Hm Hp). done.
    + destruct (handle_read_subscribe_new E s ns w Hwf Hp)
        as (w' & -> & ? & ? & _ & ? & _).
      done.
  - rewrite handle_read_other. done.
Qed.

Lemma Subscribe_world E ns w : (Subscribe E ns w).2 = w.
Proof. reflexivity. Qed.

Lemma step_frame E a σ :
  wf (registry (world σ)) →
  wf (registry (world (step E a σ)))
  ∧ topics (registry (world σ)) ⊆ topics (registry (world (step E a σ)))
  ∧ ∀ n, announcement_of n (registry (world (step E a σ)))
         = match registered E n a with
           | Some d => Some d
           | None => announcement_of n (registry (world σ))
           end.
Proof.
  intros Hwf. destruct a as [sid remote | sid r | pid ns addrs ttl counter now | k | p ns | ns];
    unfold step, registered.
  - by destruct (sessions σ !! sid).
  - destruct (sessions σ !! sid) as [s |]; [| done].
    pose proof (handle_read_frame E s r (world σ) Hwf) as Hframe.
    destruct (handle_read E s r (world σ)) as [[s1 st] w1]. simpl in Hframe.
    by destruct st.
  - destruct (Register_begin_spec E pid ns addrs ttl counter now (world σ) Hwf)
      as (tn & w1 & l & t & -> & Hwf1 & _ & Hmono & _ & _ & _ & _ & Hann).
    cbn [world]. split; [done |]. split; [done |].
    intros n. rewrite Hann.
    destruct (decide (n = ns)) as [-> | Hne].
    + by rewrite decide_True.
    + by rewrite decide_False.
  - destruct (broadcasts σ !! k) as [[tn d] |]; [| done]. cbn [world].
    unfold Register_notify. by rewrite notify_registry.
  - done.
  - done.
Qed.

Lemma last_registered_cons E n a acts :
  last_registered E n (a :: acts)
  = match last_registered E n acts with
    | Some d => Some d
    | None => registered E n a
    end.
Proof.
  unfold last_registered. simpl.
  destruct (registered E n a) as [d |]; [| by destruct (last _)].
  rewrite last_cons. by destruct (last _).
Qed.

Lemma run_frame E acts σ :
  wf (registry (world σ)) →
  wf (registry (world (run E acts σ)))
  ∧ topics (registry (world σ)) ⊆ topics (registry (world (run E acts σ)))
  ∧ ∀ n, announcement_of n (registry (world (run E acts σ)))
         = match last_registered E n acts with
           | Some d => Some d
           | None => announcement_of n (registry (world σ))
           end.
Proof.
  revert σ. induction acts as [| a acts IH]; intros σ Hwf.
  - done.
  - destruct (step_frame E a σ Hwf) as (Hwf1 & Hmono1 & Hann1).
    destruct (IH (step E a σ) Hwf1) as (Hwf2 & Hmono2 & Hann2).
    change (run E (a :: acts) σ) with (run E acts (step E a σ)).
    split; [done |]. split; [by etrans |].
    intros n. rewrite Hann2, last_registered_cons, Hann1.
    by destruct (last_registered E n acts).
Qed.

Lemma wf_boot h : wf (registry (world (boot h))).
Proof. apply wf_new. Qed.

(** Topics are only ever added, in any registry. *)
Lemma leave_topics_topics_mono p nss ps : topics ps ⊆ topics (leave_topics p nss ps).
Proof.
  revert ps. induction nss as [| ns nss IH]; intros ps; [done |].
  cbn [leave_topics].
  pose proof (getOrCreateTopic_topics_mono ns ps) as Hmono.
  destruct (getOrCreateTopic ns ps) as [l ps1]. simpl in Hmono.
  etrans; [exact Hmono |]. apply (IH (map_delete _ p ps1)).
Qed.

Lemma handle_read_topics_mono E s r w :
  topics (registry w) ⊆ topics (registry (handle_read E s r w).2).
Proof.
  destruct r as [err | [[| code] ns]]; [| | done].
  - apply leave_topics_topics_mono.
  - unfold handle_read. simpl.
    pose proof (getOrCreateTopic_topics_mono ns (registry w)) as Hmono.
    destruct (getOrCreateTopic ns (registry w)) as [l ps1]. simpl in Hmono.
    destruct (map_at _ ps1 !! RemotePeer s); [done |].
    destruct (lastAnnouncement _); [| done].
    by destruct (WriteMsg_err E (stream s) _ (trace w)).
Qed.

Lemma step_topics_mono E a σ :
  topics (registry (world σ)) ⊆ topics (registry (world (step E a σ))).
Proof.
  destruct a as [sid remote | sid r | pid ns addrs ttl counter now | k | p ns | ns];
    unfold step.
  - by destruct (sessions σ !! sid).
  - destruct (sessions σ !! sid) as [s |]; [| done].
    pose proof (handle_read_topics_mono E s r (world σ)) as Hmono.
    destruct (handle_read E s r (world σ)) as [[s1 st] w1]. by destruct st.
  - unfold Register_begin, Register_publish.
    pose proof (getOrCreateTopic_topics_mono ns (registry (world σ))) as Hmono.
    by destruct (getOrCreateTopic ns (registry (world σ))) as [l ps1].
  - destruct (broadcasts σ !! k) as [[tn d] |]; [| done]. cbn [world].
    unfold Register_notify. by rewrite notify_registry.
  - done.
  - done.
Qed.

Lemma run_topics_mono E acts σ :
  topics (registry (world σ)) ⊆ topics (registry (world (run E acts σ))).
Proof.
  revert σ. induction acts as [| a acts IH]; intros σ; [done |].
  change (run E (a :: acts) σ) with (run E acts (step E a σ)).
  etrans; [apply (step_topics_mono E a) | apply IH].
Qed.

(** ** The registry only grows *)

(** C7: the first [getOrCreateTopic] for a namespace allocates one new
    Topic, with an empty subscriber map and no last announcement, and
    registers it, leaving every other entry in place; a call for a
    registered namespace returns the registered Topic and changes
    nothing, also after any steps of the provider; and no step removes an
    entry of [ps.topics]. *)
Theorem getOrCreateTopic_idempotent E ns ps tr sess bc acts σ :
  let l := (getOrCreateTopic ns ps).1 in
  let ps1 := (getOrCreateTopic ns ps).2 in
  let σ1 := run E acts (mkSystem (mkWorld ps1 tr) sess bc) in
  match topics ps !! ns with
  | Some l0 => l = l0 ∧ ps1 = ps
  | None =>
      ∃ m, (l ∉ dom (topic_heap ps)) ∧ (m ∉ dom (map_heap ps))
        ∧ ps1 = mkPubSub (host ps) (<[ns := l]> (topics ps))
                         (<[l := mkTopic m None]> (topic_heap ps))
                         (<[m := ∅]> (map_heap ps))
        ∧ size (topics ps1) = S (size (topics ps))
        ∧ subscribers_of ns ps1 = Some ∅
        ∧ announcement_of ns ps1 = None
  end
  ∧ getOrCreateTopic ns ps1 = (l, ps1)
  ∧ getOrCreateTopic ns (registry (world σ1)) = (l, registry (world σ1))
  ∧ topics (registry (world σ)) ⊆ topics (registry (world (run E acts σ))).
Proof.
  intros l ps1 σ1.
  assert (topics ps1 !! ns = Some l) as Hl by apply getOrCreateTopic_lookup.
  split; [| split; [| split]].
  - subst l ps1. unfold getOrCreateTopic.
    destruct (topics ps !! ns) as [l0 |] eqn:Hns; simpl; [done |].
    exists (fresh (dom (map_heap ps))).
    split; [apply is_fresh |]. split; [apply is_fresh |]. split; [done |].
    split; [by apply map_size_insert_None |].
    unfold subscribers_of, announcement_of; simpl.
    rewrite !lookup_insert_eq. simpl. rewrite !lookup_insert_eq. simpl.
    by rewrite lookup_insert_eq.
  - by apply getOrCreateTopic_found.
  - apply getOrCreateTopic_found.
    pose proof (run_topics_mono E acts (mkSystem (mkWorld ps1 tr) sess bc)) as Hmono.
    by apply (lookup_weaken _ _ _ _ Hl).
  - apply run_topics_mono.
Qed.

(** C4: a discover/subscribe request from a peer that is in the Topic's
    subscriber map changes neither the world nor the session; so after a
    first request any number of repeated ones leave everything as it is,
    the peer has exactly one entry in that Topic, and in every Topic,
    after any steps of the provider, a peer has at most one entry. *)
Theorem duplicate_subscribe_noop E s ns w k acts σ :
  wf (registry w) →
  let r := handle_read E s (discover_subscribe ns) w in
  (∀ m wr, subscribers_of ns (registry w) = Some m → m !! RemotePeer s = Some wr →
           r = (s, Reading, w))
  ∧ handle_reads E r.1.1 (replicate k (discover_subscribe ns)) r.2 = r
  ∧ (∃ m, subscribers_of ns (registry r.2) = Some m ∧ entries_for (RemotePeer s) m = 1%nat)
  ∧ (∀ n m p, subscribers_of n (registry (world (run E acts σ))) = Some m →
              (entries_for p m ≤ 1)%nat).
Proof.
  intros Hwf r.
  split; [| split; [| split]].
  - intros m wr Hm Hp. by apply handle_read_subscribe_dup with m wr.
  - subst r.
    destruct (default ∅ (subscribers_of ns (registry w)) !! RemotePeer s) as [wr |] eqn:Hp.
    + destruct (subscribers_of ns (registry w)) as [m |] eqn:Hm; [| done].
      rewrite (handle_read_subscribe_dup E s ns w m wr Hm Hp). simpl.
      by apply handle_reads_dup with m wr.
    + destruct (handle_read_subscribe_new E s ns w Hwf Hp)
        as (w' & -> & _ & _ & Hsub & _). simpl.
      apply handle_reads_dup with
        (<[RemotePeer s := stream s]> (default ∅ (subscribers_of ns (registry w)))) (stream s).
      * by rewrite Hsub, decide_True.
      * apply lookup_insert_eq.
  - subst r.
    destruct (default ∅ (subscribers_of ns (registry w)) !! RemotePeer s) as [wr |] eqn:Hp.
    + destruct (subscribers_of ns (registry w)) as [m |] eqn:Hm; [| done].
      rewrite (handle_read_subscribe_dup E s ns w m wr Hm Hp). simpl.
      exists m. split; [done |]. by apply entries_for_member with wr.
    + destruct (handle_read_subscribe_new E s ns w Hwf Hp)
        as (w' & -> & _ & _ & Hsub & _). simpl.
      eexists. split; [by rewrite Hsub, decide_True |].
      apply entries_for_member with (stream s). apply lookup_insert_eq.
  - intros n m p _. apply entries_for_le_1.
Qed.

Lemma duplicate_subscribe_noop_witness :
  wf (registry (world demo_subscribed))
  ∧ handle_reads demo_env demo_session (replicate 3 (discover_subscribe "chat"))
      (world demo_subscribed)
    = (demo_session, Reading, world demo_subscribed).
Proof.
  assert (wf (registry (world demo_subscribed))) as H1
    by (apply (bool_decide_unpack _); vm_compute; exact I).
  split; [exact H1 |].
  destruct (duplicate_subscribe_noop demo_env demo_session "chat" (world demo_subscribed) 3
              [] (boot "host") H1) as (Hdup & Hrep & _).
  rewrite (Hdup demo_chat 1%nat) in Hrep.
  - exact Hrep.
  - vm_compute. reflexivity.
  - vm_compute. reflexivity.
Defined.

(** ** The last announcement *)

Lemma Register_no_subscribers E pid ns addrs ttl counter now w :
  range_complete E → wf (registry w) →
  default ∅ (subscribers_of ns (registry w)) = ∅ →
  trace (Register E pid ns addrs ttl counter now w) = trace w.
Proof.
  intros [Hrange _] Hwf Hempty. unfold Register.
  destruct (Register_begin_spec E pid ns addrs ttl counter now w Hwf)
    as (tn & w1 & l & t & Heq & Hwf1 & Htr & _ & Hl & Ht & Htn & Hsub & _).
  rewrite Heq. simpl. unfold Register_notify.
  assert (map_at tn (registry w1) = ∅) as ->.
  { pose proof (Hsub ns) as Hns. rewrite decide_True, Hempty in Hns by done.
    rewrite (subscribers_of_unfold _ ns l t Hl Ht), Htn in Hns.
    by apply map_at_lookup. }
  assert (range_subscribers E ∅ = []) as ->.
  { apply Permutation_nil_r. by rewrite Hrange, map_to_list_empty. }
  done.
Qed.

(** C8: after any steps from a well-formed state the last announcement of
    a namespace is the record of the latest [Register] call for it among
    those steps, and what it was before when there is none: it is
    replaced, never cleared.  From the start it is the record of the
    latest call.  A [Register] call for a namespace without subscribers
    stores its record and writes to no one. *)
Theorem lastAnnouncement_latest_Register E h σ acts ns pid addrs ttl counter now w :
  range_complete E → wf (registry (world σ)) → wf (registry w) →
  subscribers_of ns (registry w) = None ∨ subscribers_of ns (registry w) = Some ∅ →
  announcement_of ns (registry (world (run E acts σ)))
  = match last_registered E ns acts with
    | Some d => Some d
    | None => announcement_of ns (registry (world σ))
    end
  ∧ announcement_of ns (registry (world (run E acts (boot h)))) = last_registered E ns acts
  ∧ announcement_of ns (registry (Register E pid ns addrs ttl counter now w))
    = Some (Register_record E pid ns addrs ttl now)
  ∧ trace (Register E pid ns addrs ttl counter now w) = trace w.
Proof.
  intros Hrange Hwfσ Hwf Hnone.
  split; [| split; [| split]].
  - by destruct (run_frame E acts σ Hwfσ) as (_ & _ & ->).
  - destruct (run_frame E acts (boot h) (wf_boot h)) as (_ & _ & ->).
    by destruct (last_registered E ns acts).
  - destruct (Register_spec E pid ns addrs ttl counter now w Hrange Hwf)
      as (_ & _ & _ & Hann & _).
    by rewrite Hann, decide_True.
  - apply Register_no_subscribers; [done | done |].
    by destruct Hnone as [-> | ->].
Qed.

Lemma lastAnnouncement_latest_Register_witness :
  range_complete demo_env
  ∧ announcement_of "chat" (registry (Register demo_env "p1" "chat" [] 30 1 demo_now
                                        (world (boot "host"))))
    = Some (Register_record demo_env "p1" "chat" [] 30 demo_now)
  ∧ trace (Register demo_env "p1" "chat" [] 30 1 demo_now (world (boot "host"))) = [].
Proof.
  assert (range_complete demo_env) as H1 by (by split).
  assert (wf (registry (world (boot "host")))) as H2
    by (apply (bool_decide_unpack _); vm_compute; exact I).
  assert (subscribers_of "chat" (registry (world (boot "host"))) = None
          ∨ subscribers_of "chat" (registry (world (boot "host"))) = Some ∅) as H3
    by (left; vm_compute; reflexivity).
  split; [exact H1 |].
  exact (proj2 (proj2
    (lastAnnouncement_latest_Register demo_env "host" (boot "host") [] "chat" "p1" [] 30 1
       demo_now (world (boot "host")) H1 H2 H2 H3))).
Defined.

(** ** The broadcast and the live subscriber map *)

Lemma handle_read_subscribe_store E s ns w l t m :
  topics (registry w) !! ns = Some l →
  topic_heap (registry w) !! l = Some t →
  map_heap (registry w) !! subscribers t = Some m →
  m !! RemotePeer s = None →
  map_heap (registry (handle_read E s (discover_subscribe ns) w).2) !! subscribers t
  = Some (<[RemotePeer s := stream s]> m).
Proof.
  intros Hl Ht Hm Hp. unfold handle_read, discover_subscribe. simpl.
  rewrite (getOrCreateTopic_found ns _ l Hl).
  rewrite (topic_at_lookup _ l t Ht), (map_at_lookup _ _ m Hm), Hp.
  assert (topic_at l (map_store (subscribers t) (RemotePeer s) (stream s) (registry w)) = t)
    as -> by (by apply topic_at_lookup).
  assert (map_heap (map_store (subscribers t) (RemotePeer s) (stream s) (registry w))
            !! subscribers t = Some (<[RemotePeer s := stream s]> m)) as Hstore.
  { unfold map_store. simpl. by rewrite lookup_alter_eq, Hm. }
  destruct (lastAnnouncement t) as [a |]; [| done].
  by destruct (WriteMsg_err E (stream s) a (trace w)).
Qed.

(** [toNotify] is the address in the Topic's [subscribers] field, so a
    peer that subscribes after the mutex is released and before the loop
    starts is written to by that loop. *)
Lemma Register_notify_reads_live_map E pid ns addrs ttl counter now s w :
  range_complete E → wf (registry w) →
  default ∅ (subscribers_of ns (registry w)) !! RemotePeer s = None →
  let b := Register_begin E pid ns addrs ttl counter now w in
  let w2 := (handle_read E s (discover_subscribe ns) b.2).2 in
  ∃ tail, trace (Register_notify E b.1.1 b.1.2 w2) = trace w2 ++ tail
    ∧ EvWrite (stream s) b.1.2 ∈ tail.
Proof.
  intros [Hrange _] Hwf Hp b w2. subst w2 b.
  destruct (Register_begin_spec E pid ns addrs ttl counter now w Hwf)
    as (tn & w1 & l & t & -> & Hwf1 & _ & _ & Hl & Ht & Htn & Hsub & _).
  cbn [fst snd]. set (d := Register_record E pid ns addrs ttl now).
  pose proof (Hsub ns) as Hns. rewrite decide_True in Hns by done.
  rewrite (subscribers_of_unfold _ ns l t Hl Ht) in Hns.
  pose proof (handle_read_subscribe_store E s ns w1 l t _ Hl Ht Hns Hp) as Hlive.
  rewrite Htn in Hlive. unfold Register_notify.
  rewrite (map_at_lookup _ tn _ Hlive).
  destruct (notify_trace E d
              (range_subscribers E
                 (<[RemotePeer s := stream s]> (default ∅ (subscribers_of ns (registry w)))))
              (handle_read E s (discover_subscribe ns) w1).2)
    as (tail & Htail & Hwr & _).
  exists tail. split; [done |].
  apply writes_in_elem. rewrite Hwr.
  apply list_elem_of_fmap. exists (RemotePeer s, stream s). split; [done |].
  rewrite Hrange. apply elem_of_map_to_list, lookup_insert_eq.
Qed.

(** C1 does not hold of the code: [toNotify] is bound to the Topic's map
    itself.  With B subscribed when [Register] releases the mutex and C
    subscribing before the loop starts, the map behind [toNotify] has
    gained C's entry and the loop writes the record to C's writer. *)
Theorem Register_broadcast_reaches_late_subscriber :
  let d := Register_record demo_env "p1" "chat" [] 30 demo_now in
  subscribers_of "chat" (registry (world demo_snapshot)) = Some {["B" := 1%nat]}
  ∧ (∃ toNotify, broadcasts demo_snapshot = [(toNotify, d)]
       ∧ map_heap (registry (world demo_snapshot)) !! toNotify = Some {["B" := 1%nat]}
       ∧ map_heap (registry (world demo_late)) !! toNotify = Some demo_chat)
  ∧ trace (world (step demo_env (ActRegisterNotify 0) demo_late))
    = trace (world demo_late)
      ++ [EvWrite 2 d; EvWrite 1 d;
          EvLog "unable to notify rendezvous data update: broken pipe"].
Proof.
  split; [vm_compute; reflexivity |]. split.
  - exists 1%positive. repeat split; vm_compute; reflexivity.
  - vm_compute. reflexivity.
Qed.

(** * Further properties of the provider *)

(** ** Subscriber entries and live handlers *)







Lemma run_boot_wf E h acts : wf (registry (world (run E acts (boot h)))).
Proof. by destruct (run_frame E acts (boot h) (wf_boot h)). Qed.

Lemma writes_in_elem_inv tail wr d :
  EvWrite wr d ∈ tail → (wr, d) ∈ writes_in tail.
Proof.
  intros Hin. unfold writes_in. apply list_elem_of_omap. by exists (EvWrite wr d).
Qed.



(** ** Register *)

Lemma Register_writes_elem E pid ns addrs ttl counter now w :
  range_complete E → wf (registry w) →
  ∃ tail, trace (Register E pid ns addrs ttl counter now w) = trace w ++ tail
    ∧ (∀ wr d, EvWrite wr d ∈ tail →
         d = Register_record E pid ns addrs ttl now
         ∧ ∃ p, default ∅ (subscribers_of ns (registry w)) !! p = Some wr)
    ∧ (∀ p wr, default ∅ (subscribers_of ns (registry w)) !! p = Some wr →
         EvWrite wr (Register_record E pid ns addrs ttl now) ∈ tail).
Proof.
  intros Hrange Hwf.
  destruct (Register_spec E pid ns addrs ttl counter now w Hrange Hwf)
    as (_ & _ & _ & _ & tail & Htail & Hwr & _).
  exists tail. split; [done |]. split.
  - intros wr d Hin%writes_in_elem_inv. rewrite Hwr in Hin.
    apply list_elem_of_fmap in Hin as ([p wr'] & [= -> ->] & Hin).
    split; [done |]. exists p. by apply elem_of_map_to_list.
  - intros p wr Hp. apply writes_in_elem. rewrite Hwr.
    apply list_elem_of_fmap. exists (p, wr). split; [done |]. by apply elem_of_map_to_list.
Qed.



(** X3: an uninterrupted [Register] call makes one write per entry of the
    namespace's subscriber map, all of the record it built; it leaves that
    map as it was (an empty one is created for a new namespace) and
    touches neither the subscriber map nor the last announcement of any
    other namespace. *)
Theorem Register_one_write_per_subscriber E pid ns addrs ttl counter now w :
  range_complete E → wf (registry w) →
  let d := Register_record E pid ns addrs ttl now in
  let m := default ∅ (subscribers_of ns (registry w)) in
  let w' := Register E pid ns addrs ttl counter now w in
  (∃ tail, trace w' = trace w ++ tail
     ∧ writes_in tail ≡ₚ (λ e, (e.2, d)) <$> map_to_list m
     ∧ length (writes_in tail) = size m)
  ∧ subscribers_of ns (registry w') = Some m
  ∧ (∀ n, n ≠ ns →
       subscribers_of n (registry w') = subscribers_of n (registry w)
       ∧ announcement_of n (registry w') = announcement_of n (registry w)).
Proof.
  intros Hrange Hwf d m w'.
  destruct (Register_spec E pid ns addrs ttl counter now w Hrange Hwf)
    as (_ & _ & Hsub & Hann & tail & Htail & Hwr & _).
  split; [| split].
  - exists tail. split; [done |]. split; [done |].
    rewrite Hwr, length_fmap. apply length_map_to_list.
  - subst w'. by rewrite Hsub, decide_True.
  - intros n Hn. subst w'. by rewrite Hsub, Hann, !decide_False.
Qed.

Lemma Register_one_write_per_subscriber_witness :
  range_complete demo_env ∧ wf (registry (world demo_subscribed))
  ∧ subscribers_of "chat"
      (registry (Register demo_env "p1" "chat" [] 30 1 demo_now (world demo_subscribed)))
    = Some (default ∅ (subscribers_of "chat" (registry (world demo_subscribed)))).
Proof.
  assert (range_complete demo_env) as H1 by (by split).
  assert (wf (registry (world demo_subscribed))) as H2
    by (apply (bool_decide_unpack _); vm_compute; exact I).
  split; [exact H1 |]. split; [exact H2 |].
  exact (proj1 (proj2
    (Register_one_write_per_subscriber demo_env "p1" "chat" [] 30 1 demo_now
       (world demo_subscribed) H1 H2))).
Defined.

(** X4: two [Register] calls in a row for a namespace: every subscriber's
    writer is written the first record during the first call and the
    second record during the second, each call writes no other record,
    and the last announcement ends as the second record. *)
Theorem Register_twice_in_call_order E pid1 addrs1 ttl1 counter1 now1
    pid2 addrs2 ttl2 counter2 now2 ns w :
  range_complete E → wf (registry w) →
  let d1 := Register_record E pid1 ns addrs1 ttl1 now1 in
  let d2 := Register_record E pid2 ns addrs2 ttl2 now2 in
  let w2 := Register E pid2 ns addrs2 ttl2 counter2 now2
              (Register E pid1 ns addrs1 ttl1 counter1 now1 w) in
  ∃ tail1 tail2, trace w2 = trace w ++ tail1 ++ tail2
    ∧ (∀ p wr, default ∅ (subscribers_of ns (registry w)) !! p = Some wr →
         EvWrite wr d1 ∈ tail1 ∧ EvWrite wr d2 ∈ tail2)
    ∧ (∀ wr d, EvWrite wr d ∈ tail1 → d = d1)
    ∧ (∀ wr d, EvWrite wr d ∈ tail2 → d = d2)
    ∧ announcement_of ns (registry w2) = Some d2.
Proof.
  intros Hrange Hwf d1 d2 w2.
  destruct (Register_spec E pid1 ns addrs1 ttl1 counter1 now1 w Hrange Hwf)
    as (_ & Hwf1 & Hsub1 & _ & _).
  destruct (Register_writes_elem E pid1 ns addrs1 ttl1 counter1 now1 w Hrange Hwf)
    as (tail1 & Htail1 & Hfrom1 & Hto1).
  destruct (Register_writes_elem E pid2 ns addrs2 ttl2 counter2 now2 _ Hrange Hwf1)
    as (tail2 & Htail2 & Hfrom2 & Hto2).
  destruct (Register_spec E pid2 ns addrs2 ttl2 counter2 now2 _ Hrange Hwf1)
    as (_ & _ & _ & Hann2 & _).
  exists tail1, tail2. subst w2.
  split; [by rewrite Htail2, Htail1, app_assoc |]. split; [| split; [| split]].
  - intros p wr Hp. split; [by apply (Hto1 p) |].
    apply (Hto2 p). by rewrite Hsub1, decide_True.
  - intros wr d Hin. by destruct (Hfrom1 wr d Hin).
  - intros wr d Hin. by destruct (Hfrom2 wr d Hin).
  - by rewrite Hann2, decide_True.
Qed.

Lemma Register_twice_in_call_order_witness :
  range_complete demo_env ∧ wf (registry (world demo_subscribed))
  ∧ announcement_of "chat"
      (registry (Register demo_env "p2" "chat" [] 60 2 demo_now
                   (Register demo_env "p1" "chat" [] 30 1 demo_now (world demo_subscribed))))
    = Some (Register_record demo_env "p2" "chat" [] 60 demo_now).
Proof.
  assert (range_complete demo_env) as H1 by (by split).
  assert (wf (registry (world demo_subscribed))) as H2
    by (apply (bool_decide_unpack _); vm_compute; exact I).
  split; [exact H1 |]. split; [exact H2 |].
  destruct (Register_twice_in_call_order demo_env "p1" [] 30 1 demo_now "p2" [] 60 2 demo_now
              "chat" (world demo_subscribed) H1 H2) as (tail1 & tail2 & _ & _ & _ & _ & Hann).
  exact Hann.
Defined.

(** ** The stream handler *)

Lemma range_topics_empty E : range_complete E → range_topics E ∅ = [].
Proof.
  intros [_ Hrange]. apply Permutation_nil_r. by rewrite Hrange, elements_empty.
Qed.

(** X5: a stream whose peer joins a namespace and whose next read fails
    leaves every subscriber map as it was before the stream (an empty map
    remains for a namespace that had no Topic) and every last announcement
    untouched: the entry the handler added is the entry it deletes. *)
Theorem handleStream_join_then_fail E sid remote ns err rest w :
  range_complete E → wf (registry w) →
  default ∅ (subscribers_of ns (registry w)) !! remote = None →
  ∃ w', handleStream E sid remote (discover_subscribe ns :: ReadErr err :: rest) w
        = (mkSession sid remote ({[ns]} ∪ ∅), Terminated, w')
    ∧ (∀ n, subscribers_of n (registry w')
            = if decide (n = ns) then Some (default ∅ (subscribers_of ns (registry w)))
              else subscribers_of n (registry w))
    ∧ (∀ n, announcement_of n (registry w') = announcement_of n (registry w)).
Proof.
  intros Hrange Hwf Hp. unfold handleStream.
  destruct (handle_read_subscribe_new E (mkSession sid remote ∅) ns w Hwf Hp)
    as (w1 & Heq1 & Hwf1 & _ & Hsub1 & Hann1 & _).
  cbn [stream RemotePeer subscribedTopics] in *.
  rewrite (handle_reads_continue E _ _ _ w _ w1 Heq1), handle_reads_error.
  destruct (handle_read_error E (mkSession sid remote ({[ns]} ∪ ∅)) err w1 Hrange Hwf1)
    as (w' & Heq & _ & _ & Hann & Hsub & _).
  cbn [stream RemotePeer subscribedTopics] in *.
  exists w'. split; [done |]. split.
  - intros n. rewrite Hsub, !Hsub1.
    destruct (decide (n = ns)) as [-> | Hne].
    + rewrite decide_True by (apply elem_of_union_l; by apply elem_of_singleton).
      simpl. by rewrite delete_insert_eq, delete_id.
    + rewrite decide_False; [done |].
      intros [?%elem_of_singleton | ?%not_elem_of_empty]%elem_of_union; done.
  - intros n. by rewrite Hann, Hann1.
Qed.

Lemma handleStream_join_then_fail_witness :
  range_complete demo_env ∧ wf (registry demo_registered)
  ∧ ∃ w', handleStream demo_env 3 "D" [discover_subscribe "chat"; ReadErr "EOF"] demo_registered
          = (mkSession 3 "D" ({["chat"]} ∪ ∅), Terminated, w')
      ∧ subscribers_of "chat" (registry w') = Some ∅.
Proof.
  assert (range_complete demo_env) as H1 by (by split).
  assert (wf (registry demo_registered)) as H2
    by (apply (bool_decide_unpack _); vm_compute; exact I).
  split; [exact H1 |]. split; [exact H2 |].
  destruct (handleStream_join_then_fail demo_env 3%nat "D" "chat" "EOF" [] demo_registered H1 H2)
    as (w' & Heq & Hsub & _).
  - vm_compute. reflexivity.
  - exists w'. split; [exact Heq |]. rewrite Hsub. vm_compute. reflexivity.
Defined.

(** X6: a second stream of a peer that is already in a namespace's
    subscriber map is not recorded: its request changes nothing, it joins
    nothing, and when its read fails the registry is still what it was, so
    the entry of the peer's first stream stays. *)
Theorem second_stream_is_not_recorded E sid remote ns err rest w m wr :
  range_complete E →
  subscribers_of ns (registry w) = Some m → m !! remote = Some wr →
  handleStream E sid remote (discover_subscribe ns :: ReadErr err :: rest) w
  = (mkSession sid remote ∅, Terminated,
     mkWorld (registry w) (trace w ++ [EvReset sid])).
Proof.
  intros Hrange Hm Hp. unfold handleStream.
  rewrite (handle_reads_continue E _ _ _ w (mkSession sid remote ∅) w).
  - rewrite handle_reads_error. unfold handle_read.
    cbn [stream RemotePeer subscribedTopics].
    by rewrite (range_topics_empty E Hrange).
  - by apply handle_read_subscribe_dup with m wr.
Qed.

Lemma second_stream_is_not_recorded_witness :
  range_complete demo_env
  ∧ handleStream demo_env 3 "B" [discover_subscribe "chat"; ReadErr "EOF"]
      (world demo_subscribed)
    = (mkSession 3 "B" ∅, Terminated,
       mkWorld (registry (world demo_subscribed))
               (trace (world demo_subscribed) ++ [EvReset 3])).
Proof.
  assert (range_complete demo_env) as H1 by (by split).
  split; [exact H1 |].
  apply (second_stream_is_not_recorded demo_env 3%nat "B" "chat" "EOF" []
           (world demo_subscribed) demo_chat 1%nat H1).
  - vm_compute. reflexivity.
  - vm_compute. reflexivity.
Defined.

(** X7: a request that adds a peer to a namespace changes, in the whole
    registry, only that peer's entry in that namespace's subscriber map:
    the other peers' entries, the other namespaces' maps and every last
    announcement stay; and when the namespace has no last announcement,
    nothing is written or logged. *)
Theorem subscribe_touches_one_entry E s ns w :
  wf (registry w) →
  default ∅ (subscribers_of ns (registry w)) !! RemotePeer s = None →
  let w' := (handle_read E s (discover_subscribe ns) w).2 in
  (∃ m', subscribers_of ns (registry w') = Some m'
     ∧ m' !! RemotePeer s = Some (stream s)
     ∧ ∀ p, p ≠ RemotePeer s →
            m' !! p = default ∅ (subscribers_of ns (registry w)) !! p)
  ∧ (∀ n, n ≠ ns → subscribers_of n (registry w') = subscribers_of n (registry w))
  ∧ (∀ n, announcement_of n (registry w') = announcement_of n (registry w))
  ∧ (announcement_of ns (registry w) = None → trace w' = trace w).
Proof.
  intros Hwf Hp w'. subst w'.
  destruct (handle_read_subscribe_new E s ns w Hwf Hp)
    as (w' & -> & _ & _ & Hsub & Hann & Htr).
  cbn [snd]. split; [| split; [| split]].
  - eexists. split; [by rewrite Hsub, decide_True |].
    split; [apply lookup_insert_eq |].
    intros p Hne. by rewrite lookup_insert_ne.
  - intros n Hn. by rewrite Hsub, decide_False.
  - done.
  - intros Hnone. by rewrite Htr, Hnone, app_nil_r.
Qed.

Lemma subscribe_touches_one_entry_witness :
  wf (registry (world demo_subscribed))
  ∧ trace (handle_read demo_env (mkSession 3 "D" ∅) (discover_subscribe "chat")
             (world demo_subscribed)).2
    = trace (world demo_subscribed).
Proof.
  assert (wf (registry (world demo_subscribed))) as H1
    by (apply (bool_decide_unpack _); vm_compute; exact I).
  split; [exact H1 |].
  assert (default ∅ (subscribers_of "chat" (registry (world demo_subscribed)))
            !! RemotePeer (mkSession 3 "D" ∅) = None) as H2 by (vm_compute; reflexivity).
  apply (proj2 (proj2 (proj2
    (subscribe_touches_one_entry demo_env (mkSession 3 "D" ∅) "chat"
       (world demo_subscribed) H1 H2)))).
  vm_compute. reflexivity.
Defined.

(** X8: in every state the provider reaches, a request that adds a peer
    to a namespace is answered with the record of the latest [Register]
    call for that namespace, written to the peer's own writer (and a log
    line when that write fails), and with nothing when no [Register] call
    for the namespace was made. *)
Theorem new_subscriber_gets_latest_record E h acts s ns :
  let σ := run E acts (boot h) in
  default ∅ (subscribers_of ns (registry (world σ))) !! RemotePeer s = None →
  trace (handle_read E s (discover_subscribe ns) (world σ)).2
  = trace (world σ) ++
    match last_registered E ns acts with
    | None => []
    | Some d =>
        EvWrite (stream s) d ::
        match WriteMsg_err E (stream s) d (trace (world σ)) with
        | Some e => [EvLog ("unable to write announcement: " +:+ e)]
        | None => []
        end
    end.
Proof.
  intros σ Hp.
  destruct (handle_read_subscribe_new E s ns (world σ) (run_boot_wf E h acts) Hp)
    as (w' & -> & _ & _ & _ & _ & Htr).
  cbn [snd]. rewrite Htr. subst σ.
  destruct (run_frame E acts (boot h) (wf_boot h)) as (_ & _ & ->).
  by destruct (last_registered E ns acts).
Qed.

Lemma new_subscriber_gets_latest_record_witness :
  trace (handle_read demo_env (mkSession 2 "C" ∅) (discover_subscribe "chat")
           (world demo_snapshot)).2
  = trace (world demo_snapshot)
    ++ [EvWrite 2 (Register_record demo_env "p1" "chat" [] 30 demo_now)].
Proof.
  apply (new_subscriber_gets_latest_record demo_env "host"
           [ActAccept 1 "B"; ActRead 1 (discover_subscribe "chat");
            ActRegisterBegin "p1" "chat" [] 30 1 demo_now]
           (mkSession 2 "C" ∅) "chat").
  vm_compute. reflexivity.
Defined.

(** X9: reads that yield messages of any other type than
    discover/subscribe are skipped, however many arrive: the handler is
    back at its read with the session and the world unchanged. *)
Theorem other_requests_ignored E s reads w :
  Forall other_request reads → handle_reads E s reads w = (s, Reading, w).
Proof.
  induction 1 as [| r reads Hr _ IH]; [done |].
  destruct r as [err | [ty ns]]; [done |]. simpl in Hr.
  rewrite (handle_reads_continue E s _ reads w s w); [done |].
  unfold handle_read. simpl. by rewrite decide_True.
Qed.

Lemma other_requests_ignored_witness :
  handle_reads demo_env demo_session
    [ReadMsg (mkMessage (Message_OTHER 0) "chat"); ReadMsg (mkMessage (Message_OTHER 3) "news")]
    (world demo_subscribed)
  = (demo_session, Reading, world demo_subscribed).
Proof.
  apply (other_requests_ignored demo_env demo_session).
  repeat constructor; simpl; discriminate.
Defined.

(** ** What a run never undoes *)




(** X11: in every state the provider reaches, two different namespaces
    have two different Topics, each allocated, with two different
    subscriber maps, each allocated: no write through one namespace's
    Topic or map can show through another's. *)
Theorem namespaces_never_share_a_Topic E h acts ns1 ns2 l1 l2 :
  let ps := registry (world (run E acts (boot h))) in
  ns1 ≠ ns2 → topics ps !! ns1 = Some l1 → topics ps !! ns2 = Some l2 →
  l1 ≠ l2
  ∧ ∃ t1 t2 m1 m2,
      topic_heap ps !! l1 = Some t1 ∧ topic_heap ps !! l2 = Some t2
      ∧ subscribers t1 ≠ subscribers t2
      ∧ map_heap ps !! subscribers t1 = Some m1 ∧ map_heap ps !! subscribers t2 = Some m2.
Proof.
  intros ps Hne H1 H2. pose proof (run_boot_wf E h acts) as Hwf. fold ps in Hwf.
  destruct (wf_deref ps ns1 l1 Hwf H1) as (t1 & m1 & Ht1 & Hm1).
  destruct (wf_deref ps ns2 l2 Hwf H2) as (t2 & m2 & Ht2 & Hm2).
  destruct Hwf as (_ & _ & W3 & W4).
  assert (l1 ≠ l2) as Hl.
  { intros <-. by specialize (W3 ns1 l1 H1 ns2 l1 H2 eq_refl). }
  split; [done |]. exists t1, t2, m1, m2. repeat split; try done.
  intros Heq. by specialize (W4 l1 t1 Ht1 l2 t2 Ht2 Heq).
Qed.

Lemma namespaces_never_share_a_Topic_witness :
  topics (registry (world (run demo_env
            [ActAccept 1 "B"; ActRead 1 (discover_subscribe "chat");
             ActRegisterBegin "p1" "news" [] 30 1 demo_now] (boot "host")))) !! "news"
  = Some 2%positive
  ∧ (1 : positive) ≠ 2%positive.
Proof.
  split; [vm_compute; reflexivity |].
  apply (namespaces_never_share_a_Topic demo_env "host"
           [ActAccept 1 "B"; ActRead 1 (discover_subscribe "chat");
            ActRegisterBegin "p1" "news" [] 30 1 demo_now]
           "chat" "news" 1%positive 2%positive).
  - discriminate.
  - vm_compute. reflexivity.
  - vm_compute. reflexivity.
Defined.

(** ** The TTL *)

Lemma wrap64_range z : - 2 ^ 63 <= wrap64 z < 2 ^ 63.
Proof.
  unfold wrap64.
  pose proof (Z.mod_pos_bound (z + 2 ^ 63) (2 ^ 64) ltac:(lia)) as Hmod.
  change (2 ^ 64) with (2 * 2 ^ 63) in *. lia.
Qed.

(** X12: for a TTL of type [int], [time.Duration(ttlAsSeconds) *
    time.Second] is that many seconds in nanoseconds exactly when the TTL
    lies between -9223372036 and 9223372036 seconds; beyond, the product
    has wrapped. *)
Theorem ttl_Duration_exact_iff ttl :
  - 2 ^ 63 <= ttl < 2 ^ 63 →
  ttl_Duration ttl = ttl * 1000000000 ↔ -9223372036 <= ttl <= 9223372036.
Proof.
  intros Hint. split.
  - intros Heq. pose proof (wrap64_range (wrap64 ttl * Second)) as Hr.
    fold (ttl_Duration ttl) in Hr. rewrite Heq in Hr.
    change (2 ^ 63) with 9223372036854775808 in Hr. lia.
  - intros Hb. apply ttl_Duration_exact.
    change (2 ^ 63) with 9223372036854775808. lia.
Qed.

Lemma ttl_Duration_exact_iff_witness :
  ttl_Duration 9223372036 = 9223372036 * 1000000000
  ∧ ttl_Duration 9223372037 ≠ 9223372037 * 1000000000.
Proof.
  split.
  - apply (ttl_Duration_exact_iff 9223372036); lia.
  - intros Heq. apply (ttl_Duration_exact_iff 9223372037) in Heq; lia.
Defined.

Lemma Register_record_Ttl E pid ns addrs ttl now :
  clock_reading now → -9223372036 <= ttl <= 9223372036 →
  Ttl (Register_record E pid ns addrs ttl now) = Time_UnixMilli now + ttl * 1000.
Proof.
  intros Hnow Hb. unfold Register_record. simpl.
  assert (- 2 ^ 63 <= ttl * 1000000000 < 2 ^ 63) as Hd
    by (change (2 ^ 63) with 9223372036854775808; lia).
  rewrite ttl_Duration_exact by done.
  rewrite Time_Add_seconds by apply Hnow.
  by apply Time_UnixMilli_shift.
Qed.

(** X13: [Register] does not check the TTL: within the range of
    [time.Duration], two records built at the same time have expiries
    that differ by the difference of their TTLs, so a longer TTL expires
    later, and a negative TTL is accepted and yields an expiry before the
    call time. *)
Theorem Register_expiry_follows_ttl E pid ns addrs ttl1 ttl2 now :
  clock_reading now →
  -9223372036 <= ttl1 <= 9223372036 → -9223372036 <= ttl2 <= 9223372036 →
  Ttl (Register_record E pid ns addrs ttl2 now) - Ttl (Register_record E pid ns addrs ttl1 now)
  = (ttl2 - ttl1) * 1000
  ∧ (ttl1 < ttl2 →
     Ttl (Register_record E pid ns addrs ttl1 now) < Ttl (Register_record E pid ns addrs ttl2 now))
  ∧ (ttl1 < 0 → Ttl (Register_record E pid ns addrs ttl1 now) < Time_UnixMilli now).
Proof.
  intros Hnow H1 H2. rewrite !Register_record_Ttl by done. lia.
Qed.

Lemma Register_expiry_follows_ttl_witness :
  clock_reading demo_now
  ∧ Ttl (Register_record demo_env "p1" "chat" [] (-5) demo_now) < Time_UnixMilli demo_now.
Proof.
  assert (clock_reading demo_now) as H1 by (unfold clock_reading, demo_now; simpl; lia).
  split; [exact H1 |].
  apply (Register_expiry_follows_ttl demo_env "p1" "chat" [] (-5) 30 demo_now H1); lia.
Defined.

(** ** A subscription between the unlock and the loop *)

(** X14: a peer that joins a namespace after a [Register] call for it has
    released the Topic's mutex and before that call's loop starts is
    written the call's record twice on its one writer: once as the
    confirmation of the subscription and once by the loop. *)
Theorem late_subscriber_is_written_twice E pid ns addrs ttl counter now s w :
  range_complete E → wf (registry w) →
  default ∅ (subscribers_of ns (registry w)) !! RemotePeer s = None →
  let b := Register_begin E pid ns addrs ttl counter now w in
  let w2 := (handle_read E s (discover_subscribe ns) b.2).2 in
  ∃ logs tail,
    trace (Register_notify E b.1.1 b.1.2 w2)
    = trace w ++ EvWrite (stream s) b.1.2 :: logs ++ tail
    ∧ writes_in logs = []
    ∧ EvWrite (stream s) b.1.2 ∈ tail.
Proof.
  intros Hrange Hwf Hp b w2.
  destruct (Register_notify_reads_live_map E pid ns addrs ttl counter now s w Hrange Hwf Hp)
    as (tail & Htail & Hin).
  fold b in Htail, Hin. fold w2 in Htail.
  subst w2 b.
  destruct (Register_begin_spec E pid ns addrs ttl counter now w Hwf)
    as (tn & w1 & l & t & Heq & Hwf1 & Htr1 & _ & _ & _ & _ & Hsub1 & Hann1).
  rewrite Heq in Htail, Hin |- *. cbn [fst snd] in *.
  assert (default ∅ (subscribers_of ns (registry w1)) !! RemotePeer s = None) as Hp1
    by (by rewrite Hsub1, decide_True).
  destruct (handle_read_subscribe_new E s ns w1 Hwf1 Hp1)
    as (w2 & Heq2 & _ & _ & _ & _ & Htr2).
  rewrite Heq2 in Htail |- *. cbn [snd] in *.
  rewrite Hann1, decide_True in Htr2 by done.
  exists (match WriteMsg_err E (stream s) (Register_record E pid ns addrs ttl now) (trace w1) with
          | Some e => [EvLog ("unable to write announcement: " +:+ e)]
          | None => []
          end), tail.
  split; [| split; [| done]].
  - by rewrite Htail, Htr2, Htr1, <- !app_assoc.
  - by destruct (WriteMsg_err E (stream s) _ (trace w1)).
Qed.

Lemma late_subscriber_is_written_twice_witness :
  range_complete demo_env ∧ wf (registry (world demo_subscribed))
  ∧ ∃ logs tail,
      trace (Register_notify demo_env
               (Register_begin demo_env "p1" "chat" [] 30 1 demo_now (world demo_subscribed)).1.1
               (Register_begin demo_env "p1" "chat" [] 30 1 demo_now (world demo_subscribed)).1.2
               (handle_read demo_env (mkSession 3 "D" ∅) (discover_subscribe "chat")
                  (Register_begin demo_env "p1" "chat" [] 30 1 demo_now
                     (world demo_subscribed)).2).2)
      = trace (world demo_subscribed)
        ++ EvWrite 3 (Register_begin demo_env "p1" "chat" [] 30 1 demo_now
                        (world demo_subscribed)).1.2 :: logs ++ tail
      ∧ writes_in logs = []
      ∧ EvWrite 3 (Register_begin demo_env "p1" "chat" [] 30 1 demo_now
                     (world demo_subscribed)).1.2 ∈ tail.
Proof.
  assert (range_complete demo_env) as H1 by (by split).
  assert (wf (registry (world demo_subscribed))) as H2
    by (apply (bool_decide_unpack _); vm_compute; exact I).
  split; [exact H1 |]. split; [exact H2 |].
  apply (late_subscriber_is_written_twice demo_env "p1" "chat" [] 30 1 demo_now
           (mkSession 3 "D" ∅) (world demo_subscribed) H1 H2).
  vm_compute. reflexivity.
Defined.

(** ** The log of a broadcast *)

Lemma notify_no_failure E d es w :
  (∀ wr tr, WriteMsg_err E wr d tr = None) →
  trace (notify E d es w) = trace w ++ ((λ e, EvWrite e.2 d) <$> es).
Proof.
  intros Hok. revert w. induction es as [| [p wr] es IH]; intros w; simpl.
  - by rewrite app_nil_r.
  - rewrite Hok, IH. simpl. by rewrite <- app_assoc.
Qed.

(** X15: when no write of the record fails, an uninterrupted [Register]
    call logs nothing: the trace gains the writes to the subscribers'
    writers, one per entry of the subscriber map, and nothing else. *)
Theorem Register_logs_nothing_without_failure E pid ns addrs ttl counter now w :
  range_complete E → wf (registry w) →
  (∀ wr tr, WriteMsg_err E wr (Register_record E pid ns addrs ttl now) tr = None) →
  ∃ tail, trace (Register E pid ns addrs ttl counter now w) = trace w ++ tail
    ∧ tail ≡ₚ (λ e, EvWrite e.2 (Register_record E pid ns addrs ttl now))
               <$> map_to_list (default ∅ (subscribers_of ns (registry w))).
Proof.
  intros [Hrange _] Hwf Hok. unfold Register.
  destruct (Register_begin_spec E pid ns addrs ttl counter now w Hwf)
    as (tn & w1 & l & t & Heq & _ & Htr & _ & Hl & Ht & Htn & Hsub & _).
  rewrite Heq. cbn [fst snd]. unfold Register_notify.
  assert (map_at tn (registry w1) = default ∅ (subscribers_of ns (registry w))) as ->.
  { pose proof (Hsub ns) as Hns. rewrite decide_True in Hns by done.
    rewrite (subscribers_of_unfold _ ns l t Hl Ht), Htn in Hns.
    by apply map_at_lookup. }
  rewrite (notify_no_failure E _ _ w1 Hok), Htr.
  eexists. split; [done |]. by rewrite Hrange.
Qed.

Lemma Register_logs_nothing_without_failure_witness :
  range_complete calm_env ∧ wf (registry (world demo_subscribed))
  ∧ ∃ tail, trace (Register calm_env "p1" "chat" [] 30 1 demo_now (world demo_subscribed))
            = trace (world demo_subscribed) ++ tail
      ∧ tail ≡ₚ (λ e, EvWrite e.2 (Register_record calm_env "p1" "chat" [] 30 demo_now))
                 <$> map_to_list (default ∅ (subscribers_of "chat"
                                               (registry (world demo_subscribed)))).
Proof.
  assert (range_complete calm_env) as H1 by (by split).
  assert (wf (registry (world demo_subscribed))) as H2
    by (apply (bool_decide_unpack _); vm_compute; exact I).
  split; [exact H1 |]. split; [exact H2 |].
  apply (Register_logs_nothing_without_failure calm_env "p1" "chat" [] 30 1 demo_now
           (world demo_subscribed) H1 H2).
  intros wr tr. reflexivity.
Defined.
